(** * A Chord DHT node (chord_node.py): model and verified properties

    The class [ChordNode] of chord_node.py is embedded as pure functions on
    a record holding the fields of [self].  Outbound gRPC calls go through
    stubs whose answers are taken from an arbitrary network, indexed by a
    logical clock that every call advances: two probes of one peer may
    answer differently, and a call that times out or fails is an exception
    value.  Handlers run one at a time (the node lock is not modelled);
    a thread started by a handler is returned next to the response, to be
    run afterwards.

    Dictionaries are finite maps; [dict_keys] fixes one enumeration of
    their keys.  Strings are byte strings (the UTF-8 encoding of the Python
    text), integers are unbounded: the protobuf schema behind chord_pb2 is
    not part of the sources, so message fields carry no width. *)

From Stdlib Require Import ZArith List Ascii String Lia.
From stdpp Require Import gmap strings list fin_maps pretty.

Local Open Scope Z_scope.

(** ** hashlib.sha1 (FIPS 180-4), on bytes given as numbers below 256 *)

Module hashlib.

Definition w32 (x : Z) : Z := x mod 2 ^ 32.

Definition rotl (n x : Z) : Z :=
  w32 (Z.lor (Z.shiftl x n) (Z.shiftr x (32 - n))).

(** [str.encode()] *)
Definition encode (s : string) : list Z :=
  (λ c, Z.of_N (N_of_ascii c)) <$> list_ascii_of_string s.

Fixpoint to_bytes_big (n : nat) (x : Z) : list Z :=
  match n with
  | O => []
  | S k => to_bytes_big k (x / 256) ++ [x mod 256]
  end.

(** [int.from_bytes(bs, 'big')] *)
Definition from_bytes_big (bs : list Z) : Z :=
  foldl (λ acc b, acc * 256 + b) 0 bs.

Definition pad (msg : list Z) : list Z :=
  let len := Z.of_nat (length msg) in
  let zeros := Z.to_nat ((55 - len) mod 64) in
  msg ++ [128] ++ replicate zeros 0 ++ to_bytes_big 8 (8 * len).

Fixpoint words (n : nat) (bs : list Z) : list Z :=
  match n with
  | O => []
  | S k => from_bytes_big (take 4 bs) :: words k (drop 4 bs)
  end.

(** The message schedule, kept with the latest word in front. *)
Fixpoint extend (n : nat) (rw : list Z) : list Z :=
  match n with
  | O => rw
  | S k =>
      let x := Z.lxor (Z.lxor (rw !!! 2%nat) (rw !!! 7%nat))
                      (Z.lxor (rw !!! 13%nat) (rw !!! 15%nat)) in
      extend k (rotl 1 x :: rw)
  end.

Definition schedule (block : list Z) : list Z :=
  rev (extend 64 (rev (words 16 block))).

Definition state : Type := Z * Z * Z * Z * Z.

Definition round (st : state) (iw : nat * Z) : state :=
  let '(a, b, c, d, e) := st in
  let '(i, w) := iw in
  let '(f, k) :=
    if (i <? 20)%nat then
      (Z.lor (Z.land b c) (Z.land (Z.lxor b 0xFFFFFFFF) d), 0x5A827999)
    else if (i <? 40)%nat then
      (Z.lxor (Z.lxor b c) d, 0x6ED9EBA1)
    else if (i <? 60)%nat then
      (Z.lor (Z.lor (Z.land b c) (Z.land b d)) (Z.land c d), 0x8F1BBCDC)
    else
      (Z.lxor (Z.lxor b c) d, 0xCA62C1D6) in
  (w32 (rotl 5 a + f + e + k + w), a, rotl 30 b, c, d).

Definition compress (h : state) (block : list Z) : state :=
  let '(h0, h1, h2, h3, h4) := h in
  let '(a, b, c, d, e) :=
    foldl round h (imap (λ i w, (i, w)) (schedule block)) in
  (w32 (h0 + a), w32 (h1 + b), w32 (h2 + c), w32 (h3 + d), w32 (h4 + e)).

Fixpoint blocks (n : nat) (bs : list Z) : list (list Z) :=
  match n with
  | O => []
  | S k => take 64 bs :: blocks k (drop 64 bs)
  end.

(** [hashlib.sha1(msg).digest()] *)
Definition sha1 (msg : list Z) : list Z :=
  let p := pad msg in
  let '(h0, h1, h2, h3, h4) :=
    foldl compress
          (0x67452301, 0xEFCDAB89, 0x98BADCFE, 0x10325476, 0xC3D2E1F0)
          (blocks (length p / 64) p) in
  to_bytes_big 4 h0 ++ to_bytes_big 4 h1 ++ to_bytes_big 4 h2
    ++ to_bytes_big 4 h3 ++ to_bytes_big 4 h4.

End hashlib.

(** ** chord_pb2: the messages, one record per message type *)

Module NodeInfo.
Record t := mk { id : Z; address : string; port : Z }.
Definition default : t := mk 0 "" 0.
End NodeInfo.

Module DataItem.
Record t := mk { key : string; value : string; version : Z; timestamp : Z }.
End DataItem.

Module FindSuccessorRequest.
Record t := mk { key_id : Z }.
End FindSuccessorRequest.

Module FindSuccessorResponse.
Record t := mk { node : NodeInfo.t; path : list Z; hops : Z }.
End FindSuccessorResponse.

Module GetPredecessorResponse.
Record t := mk { node : NodeInfo.t; exists_ : bool }.
End GetPredecessorResponse.

Module GetSuccessorResponse.
Record t := mk { node : NodeInfo.t }.
End GetSuccessorResponse.

Module NotifyRequest.
Record t := mk { node : NodeInfo.t }.
End NotifyRequest.

Module NotifyResponse.
Record t := mk { success : bool }.
End NotifyResponse.

Module PingResponse.
Record t := mk { alive : bool; node_id : Z }.
End PingResponse.

Module PutRequest.
Record t := mk { key : string; value : string; is_replica : bool; version : Z }.
End PutRequest.

Module PutResponse.
Record t := mk { success : bool; message : string; version : Z }.
End PutResponse.

Module SyncReplicaRequest.
Record t := mk { key : string; value : string; version : Z; timestamp : Z }.
End SyncReplicaRequest.

Module SyncReplicaResponse.
Record t := mk { success : bool }.
End SyncReplicaResponse.

Module DeleteRequest.
Record t := mk { key : string; is_replica : bool }.
End DeleteRequest.

Module DeleteResponse.
Record t := mk { success : bool; message : string }.
End DeleteResponse.

Module JoinRequest.
Record t := mk { joining_node : NodeInfo.t }.
End JoinRequest.

Module JoinResponse.
Record t := mk { successor : NodeInfo.t; success : bool; message : string }.
End JoinResponse.

Module TransferKeysRequest.
Record t := mk { start_id : Z; end_id : Z; target_node : NodeInfo.t }.
End TransferKeysRequest.

Module TransferKeysResponse.
Record t := mk { items : list DataItem.t; success : bool; message : string }.
End TransferKeysResponse.

(** ** Outbound calls *)

(** What a failed call raises; its text ends up in [f"... {e}"]. *)
Definition exn : Type := string.

(** chord_pb2_grpc.ChordServiceStub: each method answers, at a given tick
    of the clock, with a response or with an exception. *)
Module ChordServiceStub.
Record t := mk {
  Ping : nat → exn + PingResponse.t;
  FindSuccessor : nat → FindSuccessorRequest.t → exn + FindSuccessorResponse.t;
  GetPredecessor : nat → exn + GetPredecessorResponse.t;
  GetSuccessor : nat → exn + GetSuccessorResponse.t;
  Notify : nat → NotifyRequest.t → exn + NotifyResponse.t;
  Put : nat → PutRequest.t → exn + PutResponse.t;
  SyncReplica : nat → SyncReplicaRequest.t → exn + SyncReplicaResponse.t;
  Delete : nat → DeleteRequest.t → exn + DeleteResponse.t;
  Join : nat → JoinRequest.t → exn + JoinResponse.t
}.
End ChordServiceStub.

(** Computations that may call out: they read the clock and advance it by
    one per call. *)
Definition Rpc (A : Type) : Type := nat → A * nat.

Definition ret {A} (a : A) : Rpc A := λ t, (a, t).

Definition bind {A B} (c : Rpc A) (k : A → Rpc B) : Rpc B :=
  λ t, let '(a, t') := c t in k a t'.

Definition call {A} (method : nat → A) : Rpc A := λ t, (method t, S t).

Notation "'let*' x ':=' c 'in' k" := (bind c (λ x, k))
  (at level 10, x pattern, c at level 100, k at level 200, only parsing).

(** ** The fields of a ChordNode *)

Module ChordNode.
Record t := mk {
  address : string;
  port : Z;
  m : nat;
  max_nodes : Z;
  replication_factor : Z;
  id : Z;
  successor : NodeInfo.t;
  predecessor : option NodeInfo.t;
  finger_table : list (option NodeInfo.t);
  successor_list : list NodeInfo.t;
  data_store : gmap string DataItem.t;
  replica_store : gmap string DataItem.t;
  lookup_count : Z;
  total_hops : Z;
  operations_count : Z;
  is_initialized : bool
}.

Definition set_successor (v : NodeInfo.t) (s : t) : t :=
  mk (address s) (port s) (m s) (max_nodes s) (replication_factor s) (id s)
     v (predecessor s) (finger_table s) (successor_list s)
     (data_store s) (replica_store s)
     (lookup_count s) (total_hops s) (operations_count s) (is_initialized s).

Definition set_predecessor (v : option NodeInfo.t) (s : t) : t :=
  mk (address s) (port s) (m s) (max_nodes s) (replication_factor s) (id s)
     (successor s) v (finger_table s) (successor_list s)
     (data_store s) (replica_store s)
     (lookup_count s) (total_hops s) (operations_count s) (is_initialized s).

Definition set_finger_table (v : list (option NodeInfo.t)) (s : t) : t :=
  mk (address s) (port s) (m s) (max_nodes s) (replication_factor s) (id s)
     (successor s) (predecessor s) v (successor_list s)
     (data_store s) (replica_store s)
     (lookup_count s) (total_hops s) (operations_count s) (is_initialized s).

Definition set_successor_list (v : list NodeInfo.t) (s : t) : t :=
  mk (address s) (port s) (m s) (max_nodes s) (replication_factor s) (id s)
     (successor s) (predecessor s) (finger_table s) v
     (data_store s) (replica_store s)
     (lookup_count s) (total_hops s) (operations_count s) (is_initialized s).

Definition set_data_store (v : gmap string DataItem.t) (s : t) : t :=
  mk (address s) (port s) (m s) (max_nodes s) (replication_factor s) (id s)
     (successor s) (predecessor s) (finger_table s) (successor_list s)
     v (replica_store s)
     (lookup_count s) (total_hops s) (operations_count s) (is_initialized s).

Definition set_replica_store (v : gmap string DataItem.t) (s : t) : t :=
  mk (address s) (port s) (m s) (max_nodes s) (replication_factor s) (id s)
     (successor s) (predecessor s) (finger_table s) (successor_list s)
     (data_store s) v
     (lookup_count s) (total_hops s) (operations_count s) (is_initialized s).

Definition set_lookup_count (v : Z) (s : t) : t :=
  mk (address s) (port s) (m s) (max_nodes s) (replication_factor s) (id s)
     (successor s) (predecessor s) (finger_table s) (successor_list s)
     (data_store s) (replica_store s)
     v (total_hops s) (operations_count s) (is_initialized s).

Definition set_total_hops (v : Z) (s : t) : t :=
  mk (address s) (port s) (m s) (max_nodes s) (replication_factor s) (id s)
     (successor s) (predecessor s) (finger_table s) (successor_list s)
     (data_store s) (replica_store s)
     (lookup_count s) v (operations_count s) (is_initialized s).

Definition set_operations_count (v : Z) (s : t) : t :=
  mk (address s) (port s) (m s) (max_nodes s) (replication_factor s) (id s)
     (successor s) (predecessor s) (finger_table s) (successor_list s)
     (data_store s) (replica_store s)
     (lookup_count s) (total_hops s) v (is_initialized s).
End ChordNode.

Import ChordNode.

(** [list(d.keys())] *)
Definition dict_keys {A} (d : gmap string A) : list string := (map_to_list d).*1.

(** [l[:n]], a negative [n] counting from the end *)
Definition slice_to {A} (n : Z) (l : list A) : list A :=
  if 0 <=? n then take (Z.to_nat n) l
  else take (length l - Z.to_nat (- n)) l.

(** ** Identifier arithmetic *)

(** The body of [_hash], given [self.max_nodes]. *)
Definition hash_val (max_nodes : Z) (key : string) : Z :=
  let h := hashlib.sha1 (hashlib.encode key) in
  hashlib.from_bytes_big (take 8 h) mod max_nodes.

Definition _hash (self : ChordNode.t) (key : string) : Z :=
  hash_val (max_nodes self) key.

Definition _make_node_info (node_id : Z) (address : string) (port : Z) : NodeInfo.t :=
  NodeInfo.mk node_id address port.

Definition _in_range (key start end_ : Z) (inclusive : bool) : bool :=
  if start =? end_ then inclusive
  else if start <? end_ then
    if inclusive then (start <? key) && (key <=? end_)
    else (start <? key) && (key <? end_)
  else
    if inclusive then (key >? start) || (key <=? end_)
    else (key >? start) || (key <? end_).

(** [ChordNode(address, port, m, replication_factor)] *)
Definition __init__ (address : string) (port : Z) (m : nat)
    (replication_factor : Z) : ChordNode.t :=
  let max_nodes := 2 ^ Z.of_nat m in
  let node_key := address +:+ ":" +:+ pretty port in
  let id := hash_val max_nodes node_key in
  let successor := _make_node_info id address port in
  ChordNode.mk address port m max_nodes replication_factor id
    successor None (replicate m None) [successor]
    ∅ ∅ 0 0 0 false.

(** ** The methods of ChordNode *)

Section Methods.

(** [_create_stub]: the channel to a peer, whatever the network makes of it. *)
Variable _create_stub : NodeInfo.t → ChordServiceStub.t.

Definition self_info (self : ChordNode.t) : NodeInfo.t :=
  _make_node_info (id self) (address self) (port self).

Definition _is_node_alive (node_info : NodeInfo.t) : Rpc bool :=
  let* r := call (ChordServiceStub.Ping (_create_stub node_info)) in
  ret (match r with
       | inr response => PingResponse.alive response
       | inl _ => false
       end).

(** The scan of [finger_table[i]] for [i] from [upto - 1] down to 0; the
    table has [m] entries from [__init__] on. *)
Fixpoint closest_finger (self : ChordNode.t) (key_id : Z) (upto : nat)
    : Rpc (option NodeInfo.t) :=
  match upto with
  | O => ret None
  | S i =>
      match finger_table self !! i with
      | Some (Some finger) =>
          if negb (NodeInfo.id finger =? id self)
             && _in_range (NodeInfo.id finger) (id self) key_id false
          then
            let* alive := _is_node_alive finger in
            if alive then ret (Some finger)
            else closest_finger self key_id i
          else closest_finger self key_id i
      | _ => closest_finger self key_id i
      end
  end.

Fixpoint closest_in_list (self : ChordNode.t) (key_id : Z)
    (l : list NodeInfo.t) : Rpc (option NodeInfo.t) :=
  match l with
  | [] => ret None
  | succ :: rest =>
      if negb (NodeInfo.id succ =? id self)
         && _in_range (NodeInfo.id succ) (id self) key_id false
      then
        let* alive := _is_node_alive succ in
        if alive then ret (Some succ)
        else closest_in_list self key_id rest
      else closest_in_list self key_id rest
  end.

Definition _closest_preceding_finger (self : ChordNode.t) (key_id : Z)
    : Rpc NodeInfo.t :=
  let* found := closest_finger self key_id (m self) in
  match found with
  | Some finger => ret finger
  | None =>
      let* found := closest_in_list self key_id (successor_list self) in
      match found with
      | Some succ => ret succ
      | None => ret (self_info self)
      end
  end.

(** The [for i in range(max_attempts)] loop of [_build_successor_list]. *)
Fixpoint build_loop (self : ChordNode.t) (attempts : nat)
    (successors : list NodeInfo.t) (seen_ids : gset Z)
    (current : NodeInfo.t) : Rpc (list NodeInfo.t) :=
  match attempts with
  | O => ret successors
  | S attempts =>
      if Z.of_nat (length successors) >=? replication_factor self - 1
      then ret successors
      else if decide (NodeInfo.id current ∈ seen_ids) then ret successors
      else
        let* alive := _is_node_alive current in
        if alive then
          let successors := successors ++ [current] in
          let seen_ids := seen_ids ∪ {[NodeInfo.id current]} in
          let* r := call (ChordServiceStub.GetSuccessor (_create_stub current)) in
          match r with
          | inr resp =>
              let next := GetSuccessorResponse.node resp in
              if decide (NodeInfo.id next ∈ seen_ids) then ret successors
              else build_loop self attempts successors seen_ids next
          | inl _ => ret successors
          end
        else
          let* r := call (ChordServiceStub.GetSuccessor (_create_stub current)) in
          match r with
          | inr resp =>
              let next := GetSuccessorResponse.node resp in
              if decide (NodeInfo.id next ∈ seen_ids)
              then build_loop self attempts successors seen_ids current
              else build_loop self attempts successors seen_ids next
          | inl _ => ret successors
          end
  end.

Definition _build_successor_list (self : ChordNode.t) : Rpc (list NodeInfo.t) :=
  let current := successor self in
  if NodeInfo.id current =? id self then ret []
  else
    let max_attempts := replication_factor self * 2 in
    build_loop self (Z.to_nat max_attempts) [] {[id self]} current.

(** The loop of [_replicate_put] over [successor_list[:R-1]]. *)
Fixpoint replicate_loop (self : ChordNode.t) (req : SyncReplicaRequest.t)
    (l : list NodeInfo.t) (successful_replicas : Z) : Rpc Z :=
  match l with
  | [] => ret successful_replicas
  | successor :: rest =>
      if NodeInfo.id successor =? id self
      then replicate_loop self req rest successful_replicas
      else
        let* r := call (λ t, ChordServiceStub.SyncReplica (_create_stub successor) t req) in
        match r with
        | inr resp =>
            if SyncReplicaResponse.success resp
            then replicate_loop self req rest (successful_replicas + 1)
            else replicate_loop self req rest successful_replicas
        | inl _ => replicate_loop self req rest successful_replicas
        end
  end.

Definition _replicate_put (self : ChordNode.t) (key value : string)
    (version timestamp : Z) : Rpc Z :=
  replicate_loop self (SyncReplicaRequest.mk key value version timestamp)
    (slice_to (replication_factor self - 1) (successor_list self)) 0.

(** The keys [_redistribute_keys_on_join] collects under the lock. *)
Definition keys_to_transfer (self : ChordNode.t) (new_node : NodeInfo.t)
    : list string :=
  List.filter
    (λ key,
       match predecessor self with
       | Some p =>
           _in_range (_hash self key) (NodeInfo.id p) (NodeInfo.id new_node) true
       | None => false
       end)
    (dict_keys (data_store self)).

(** The loop of [_transfer_keys_batch]; an exception leaves it. *)
Fixpoint _transfer_keys_batch (self : ChordNode.t) (keys : list string)
    (target_node : NodeInfo.t) : Rpc ChordNode.t :=
  match keys with
  | [] => ret self
  | key :: rest =>
      match data_store self !! key with
      | Some item =>
          let req := PutRequest.mk key (DataItem.value item) false
                       (DataItem.version item) in
          let* r := call (λ t, ChordServiceStub.Put (_create_stub target_node) t req) in
          match r with
          | inr _ =>
              _transfer_keys_batch
                (set_data_store (delete key (data_store self)) self)
                rest target_node
          | inl _ => ret self
          end
      | None => _transfer_keys_batch self rest target_node
      end
  end.

Definition _redistribute_keys_on_join (self : ChordNode.t)
    (new_node : NodeInfo.t) : Rpc ChordNode.t :=
  match keys_to_transfer self new_node with
  | [] => ret self
  | keys => _transfer_keys_batch self keys new_node
  end.

(** *** gRPC service methods *)

Definition FindSuccessor (self : ChordNode.t) (request : FindSuccessorRequest.t)
    : Rpc (FindSuccessorResponse.t * ChordNode.t) :=
  let key_id := FindSuccessorRequest.key_id request mod max_nodes self in
  let path := [id self] in
  let hops := 1 in
  let self := set_lookup_count (lookup_count self + 1) self in
  if _in_range key_id (id self) (NodeInfo.id (successor self)) true then
    ret (FindSuccessorResponse.mk (successor self) path hops,
         set_total_hops (total_hops self + hops) self)
  else
    let* next_node := _closest_preceding_finger self key_id in
    if NodeInfo.id next_node =? id self then
      ret (FindSuccessorResponse.mk (successor self) path hops,
           set_total_hops (total_hops self + hops) self)
    else
      let* r := call (λ t, ChordServiceStub.FindSuccessor (_create_stub next_node) t request) in
      match r with
      | inr response =>
          let response :=
            FindSuccessorResponse.mk
              (FindSuccessorResponse.node response)
              (id self :: FindSuccessorResponse.path response)
              (FindSuccessorResponse.hops response + 1) in
          ret (response,
               set_total_hops (total_hops self + FindSuccessorResponse.hops response) self)
      | inl _ =>
          ret (FindSuccessorResponse.mk (successor self) path hops,
               set_total_hops (total_hops self + hops) self)
      end.

(** Besides the response and the node, the argument of the thread started
    on [_redistribute_keys_on_join], if one is started. *)
Definition Notify (self : ChordNode.t) (request : NotifyRequest.t)
    : NotifyResponse.t * ChordNode.t * option NodeInfo.t :=
  let node := NotifyRequest.node request in
  let should_update :=
    match predecessor self with
    | None => true
    | Some p => _in_range (NodeInfo.id node) (NodeInfo.id p) (id self) false
    end in
  if should_update then
    let old_predecessor := predecessor self in
    let self := set_predecessor (Some node) self in
    match old_predecessor with
    | Some old =>
        if negb (NodeInfo.id old =? NodeInfo.id node)
        then (NotifyResponse.mk true, self, Some node)
        else (NotifyResponse.mk true, self, None)
    | None => (NotifyResponse.mk true, self, None)
    end
  else (NotifyResponse.mk true, self, None).

(** The part of [Put] under the comment "Store locally"; [timestamp] is
    the clock reading [int(time.time() * 1000)]. *)
Definition store_locally (self : ChordNode.t) (request : PutRequest.t)
    (timestamp : Z) : Rpc (PutResponse.t * ChordNode.t) :=
  let key := PutRequest.key request in
  let value := PutRequest.value request in
  let requested_version := PutRequest.version request in
  if PutRequest.is_replica request then
    let version := if requested_version >? 0 then requested_version else 1 in
    let item := DataItem.mk key value version timestamp in
    ret (PutResponse.mk true "Replica stored" version,
         set_replica_store (<[key := item]> (replica_store self)) self)
  else
    let version :=
      match data_store self !! key with
      | Some item => DataItem.version item + 1
      | None => 1
      end in
    let item := DataItem.mk key value version timestamp in
    let self := set_data_store (<[key := item]> (data_store self)) self in
    let* successful_replicas :=
      if is_initialized self
      then _replicate_put self key value version timestamp
      else ret 0 in
    ret (PutResponse.mk true
           ("Stored with " +:+ pretty successful_replicas +:+ " replicas")
           version,
         self).

Definition Put (self : ChordNode.t) (request : PutRequest.t) (timestamp : Z)
    : Rpc (PutResponse.t * ChordNode.t) :=
  let key := PutRequest.key request in
  let is_replica := PutRequest.is_replica request in
  let key_hash := _hash self key in
  let self := set_operations_count (operations_count self + 1) self in
  let responsible :=
    match predecessor self with
    | Some p => _in_range key_hash (NodeInfo.id p) (id self) true
    | None => true
    end in
  if negb responsible && negb is_replica then
    let find_req := FindSuccessorRequest.mk key_hash in
    let* (find_resp, self) := FindSuccessor self find_req in
    if negb (NodeInfo.id (FindSuccessorResponse.node find_resp) =? id self) then
      let stub := _create_stub (FindSuccessorResponse.node find_resp) in
      let* r := call (λ t, ChordServiceStub.Put stub t request) in
      match r with
      | inr response => ret (response, self)
      | inl e => ret (PutResponse.mk false ("Routing failed: " +:+ e) 0, self)
      end
    else store_locally self request timestamp
  else store_locally self request timestamp.

Definition SyncReplica (self : ChordNode.t) (request : SyncReplicaRequest.t)
    : SyncReplicaResponse.t * ChordNode.t :=
  let key := SyncReplicaRequest.key request in
  let item :=
    DataItem.mk key (SyncReplicaRequest.value request)
      (SyncReplicaRequest.version request)
      (SyncReplicaRequest.timestamp request) in
  (SyncReplicaResponse.mk true,
   set_replica_store (<[key := item]> (replica_store self)) self).

(** The fan-out of [Delete] to the successor list; answers and failures
    are dropped. *)
Fixpoint delete_replicas (self : ChordNode.t) (key : string)
    (l : list NodeInfo.t) : Rpc unit :=
  match l with
  | [] => ret tt
  | succ :: rest =>
      if negb (NodeInfo.id succ =? id self) then
        let req := DeleteRequest.mk key true in
        let* _ := call (λ t, ChordServiceStub.Delete (_create_stub succ) t req) in
        delete_replicas self key rest
      else delete_replicas self key rest
  end.

Definition Delete (self : ChordNode.t) (request : DeleteRequest.t)
    : Rpc (DeleteResponse.t * ChordNode.t) :=
  let key := DeleteRequest.key request in
  let is_replica := DeleteRequest.is_replica request in
  let self := set_operations_count (operations_count self + 1) self in
  let* (deleted, self) :=
    if is_replica then
      match replica_store self !! key with
      | Some _ =>
          ret (true, set_replica_store (delete key (replica_store self)) self)
      | None => ret (false, self)
      end
    else
      match data_store self !! key with
      | Some _ =>
          let self := set_data_store (delete key (data_store self)) self in
          let* _ := delete_replicas self key (successor_list self) in
          ret (true, self)
      | None => ret (false, self)
      end in
  if deleted : bool then ret (DeleteResponse.mk true "Deleted", self)
  else ret (DeleteResponse.mk false "Not found", self).

Definition Join (self : ChordNode.t) (request : JoinRequest.t)
    : Rpc (JoinResponse.t * ChordNode.t) :=
  let joining_node := JoinRequest.joining_node request in
  let new_id := NodeInfo.id joining_node in
  if _in_range new_id (id self) (NodeInfo.id (successor self)) false
     || (NodeInfo.id (successor self) =? id self)
  then
    let old_successor := successor self in
    let self := set_successor joining_node self in
    let* l := _build_successor_list self in
    ret (JoinResponse.mk old_successor true "Joined successfully",
         set_successor_list l self)
  else
    let* r := call (λ t, ChordServiceStub.Join (_create_stub (successor self)) t request) in
    match r with
    | inr response => ret (response, self)
    | inl e =>
        ret (JoinResponse.mk NodeInfo.default false ("Join forward failed: " +:+ e),
             self)
    end.

(** One turn of the loop of [TransferKeys]; the key comes from the keys
    of the store and is still in it. *)
Definition transfer_step (self : ChordNode.t) (start_id end_id : Z)
    (acc : list DataItem.t * gmap string DataItem.t) (key : string)
    : list DataItem.t * gmap string DataItem.t :=
  let '(transferred_items, store) := acc in
  if _in_range (_hash self key) start_id end_id true then
    match store !! key with
    | Some item => (transferred_items ++ [item], delete key store)
    | None => acc
    end
  else acc.

Definition TransferKeys (self : ChordNode.t) (request : TransferKeysRequest.t)
    : TransferKeysResponse.t * ChordNode.t :=
  let start_id := TransferKeysRequest.start_id request in
  let end_id := TransferKeysRequest.end_id request in
  let '(transferred_items, store) :=
    foldl (transfer_step self start_id end_id) ([], data_store self)
          (dict_keys (data_store self)) in
  (TransferKeysResponse.mk transferred_items true
     ("Transferred " +:+ pretty (length transferred_items) +:+ " keys"),
   set_data_store store self).

(** *** Background maintenance *)

Definition promote_step (acc : ChordNode.t * list string)
    (entry : string * DataItem.t) : ChordNode.t * list string :=
  let '(self, promoted) := acc in
  let '(key, item) := entry in
  let key_hash := _hash self key in
  match predecessor self with
  | Some p =>
      if _in_range key_hash (NodeInfo.id p) (id self) true then
        (set_replica_store (delete key (replica_store self))
           (set_data_store (<[key := item]> (data_store self)) self),
         promoted ++ [key])
      else acc
  | None => acc
  end.

Fixpoint rereplicate (self : ChordNode.t) (promoted : list string) : Rpc unit :=
  match promoted with
  | [] => ret tt
  | key :: rest =>
      match data_store self !! key with
      | Some item =>
          let* _ := _replicate_put self key (DataItem.value item)
                      (DataItem.version item) (DataItem.timestamp item) in
          rereplicate self rest
      | None => rereplicate self rest
      end
  end.

Definition _promote_replicas_on_failure (self : ChordNode.t)
    (failed_node_id : Z) : Rpc ChordNode.t :=
  let '(self, promoted) :=
    foldl promote_step (self, []) (map_to_list (replica_store self)) in
  let* _ := rereplicate self promoted in
  ret self.

(** The loop of [_handle_successor_failure] over the successor list. *)
Fixpoint backup_successor (self : ChordNode.t) (l : list NodeInfo.t)
    : Rpc ChordNode.t :=
  match l with
  | [] =>
      let self := set_successor (self_info self) self in
      ret (set_successor_list [successor self] self)
  | succ :: rest =>
      if negb (NodeInfo.id succ =? id self) then
        let* alive := _is_node_alive succ in
        if alive then
          let self := set_successor succ self in
          let* l := _build_successor_list self in
          ret (set_successor_list l self)
        else backup_successor self rest
      else backup_successor self rest
  end.

Definition _handle_successor_failure (self : ChordNode.t) : Rpc ChordNode.t :=
  backup_successor self (successor_list self).

Definition _stabilize (self : ChordNode.t) : Rpc ChordNode.t :=
  if NodeInfo.id (successor self) =? id self then ret self
  else
    let current_successor := successor self in
    let* alive := _is_node_alive current_successor in
    if negb alive then
      let* self := _handle_successor_failure self in
      _promote_replicas_on_failure self (NodeInfo.id current_successor)
    else
      let stub := _create_stub current_successor in
      let* r := call (ChordServiceStub.GetPredecessor stub) in
      match r with
      | inr resp =>
          let node := GetPredecessorResponse.node resp in
          let self :=
            if GetPredecessorResponse.exists_ resp
               && negb (NodeInfo.id node =? id self)
               && _in_range (NodeInfo.id node) (id self)
                    (NodeInfo.id current_successor) false
            then set_successor node self
            else self in
          let notify_req := NotifyRequest.mk (self_info self) in
          let* r := call (λ t, ChordServiceStub.Notify stub t notify_req) in
          match r with
          | inr _ =>
              let* l := _build_successor_list self in
              ret (set_successor_list l self)
          | inl _ => _handle_successor_failure self
          end
      | inl _ => _handle_successor_failure self
      end.

(** [self.finger_table[index] = resp.node]; past the end of the table the
    assignment raises, the exception is swallowed and the table stays as it
    is, which is what the list update does. *)
Definition _fix_finger (self : ChordNode.t) (index : nat) : Rpc ChordNode.t :=
  let start := (id self + 2 ^ Z.of_nat index) mod max_nodes self in
  let req := FindSuccessorRequest.mk start in
  let* (resp, self) := FindSuccessor self req in
  ret (set_finger_table
         (<[index := Some (FindSuccessorResponse.node resp)]> (finger_table self))
         self).

(** The join step of [serve]: [stub] is the channel to the ring member
    given on the command line. *)
Definition serve_join (node : ChordNode.t) (stub : ChordServiceStub.t)
    : Rpc ChordNode.t :=
  let join_req := JoinRequest.mk (self_info node) in
  let* r := call (λ t, ChordServiceStub.Join stub t join_req) in
  match r with
  | inr resp =>
      if JoinResponse.success resp then
        let node := set_successor (JoinResponse.successor resp) node in
        let* l := _build_successor_list node in
        ret (set_successor_list l node)
      else ret node
  | inl _ => ret node
  end.

End Methods.

(** ** Clients and networks to run a node against *)

Section Clients.

Variable _create_stub : NodeInfo.t → ChordServiceStub.t.

(** A client writing one key again and again at one node, a call of
    [ChordClient.put] per write (value, time of arrival). *)
Fixpoint put_all (self : ChordNode.t) (key : string) (writes : list (string * Z))
    : Rpc (list PutResponse.t * ChordNode.t) :=
  match writes with
  | [] => ret ([], self)
  | (value, timestamp) :: rest =>
      let* (response, self) :=
        Put _create_stub self (PutRequest.mk key value false 0) timestamp in
      let* (responses, self) := put_all self key rest in
      ret (response :: responses, self)
  end.

End Clients.

(** No peer answers: every call raises. *)
Definition unreachable : NodeInfo.t → ChordServiceStub.t :=
  λ _, ChordServiceStub.mk
         (λ _, inl "unavailable") (λ _ _, inl "unavailable")
         (λ _, inl "unavailable") (λ _, inl "unavailable")
         (λ _ _, inl "unavailable") (λ _ _, inl "unavailable")
         (λ _ _, inl "unavailable") (λ _ _, inl "unavailable")
         (λ _ _, inl "unavailable").

(** Every peer answers Ping and takes a Put; its other calls time out. *)
Definition accepting : NodeInfo.t → ChordServiceStub.t :=
  λ peer, ChordServiceStub.mk
            (λ _, inr (PingResponse.mk true (NodeInfo.id peer)))
            (λ _ _, inl "deadline exceeded")
            (λ _, inl "deadline exceeded") (λ _, inl "deadline exceeded")
            (λ _ _, inl "deadline exceeded")
            (λ _ _, inr (PutResponse.mk true "Stored with 2 replicas" 1))
            (λ _ _, inl "deadline exceeded") (λ _ _, inl "deadline exceeded")
            (λ _ _, inl "deadline exceeded").

(** The node started as [chord_node.py 5000], and its peers on other ports. *)
Definition node_5000 : ChordNode.t := __init__ "localhost" 5000 32 3.

Definition peer (port : Z) : NodeInfo.t := self_info (__init__ "localhost" port 32 3).

(** [node_5000] after [Notify] from the peer on port 5001. *)
Definition node_5000_after_notify : ChordNode.t :=
  (Notify node_5000 (NotifyRequest.mk (peer 5001))).1.2.

(** ... and after a client has then put the keys "alpha" and "x" there. *)
Definition node_5000_with_keys : ChordNode.t :=
  let node := node_5000_after_notify in
  let node := (Put unreachable node (PutRequest.mk "alpha" "1" false 0) 1000 0%nat).1.2 in
  (Put unreachable node (PutRequest.mk "x" "2" false 0) 2000 0%nat).1.2.

(** [node_5000] after the peer on port 5005 joined through it and the peer on
    port 5003 notified it. *)
Definition node_5000_in_ring : ChordNode.t :=
  let node := (Join accepting node_5000 (JoinRequest.mk (peer 5005)) 0%nat).1.2 in
  (Notify node (NotifyRequest.mk (peer 5003))).1.2.

(** ** Vocabulary of the statements *)

(** The owner test of [Put] and [Get]. *)
Definition is_owner (self : ChordNode.t) (key : string) : bool :=
  match predecessor self with
  | Some p => _in_range (_hash self key) (NodeInfo.id p) (id self) true
  | None => true
  end.

(** The version the primary path of [Put] gives the next write of [key]. *)
Definition next_version (self : ChordNode.t) (key : string) : Z :=
  match data_store self !! key with
  | Some item => DataItem.version item + 1
  | None => 1
  end.

(** The arc from [start] to [end_] going clockwise, [start] excluded and
    [end_] included; the whole ring when they coincide. *)
Definition in_arc (x start end_ : Z) : Prop :=
  start = end_ ∨ (start < end_ ∧ start < x ≤ end_)
  ∨ (end_ < start ∧ (start < x ∨ x ≤ end_)).

(** As the specification words TransferKeys: the modular interval
    [[start, end]], both endpoints included. *)
Definition in_closed_interval (x start end_ : Z) : Prop :=
  if decide (start ≤ end_) then start ≤ x ≤ end_ else start ≤ x ∨ x ≤ end_.

Definition TransferKeys_closed_interval (self : ChordNode.t)
    (request : TransferKeysRequest.t) : Prop :=
  let moves key :=
    in_closed_interval (_hash self key) (TransferKeysRequest.start_id request)
      (TransferKeysRequest.end_id request) in
  let '(resp, self') := TransferKeys self request in
  (∀ item, item ∈ TransferKeysResponse.items resp ↔
           ∃ key, data_store self !! key = Some item ∧ moves key) ∧
  (∀ key, moves key → data_store self' !! key = None) ∧
  (∀ key, ¬ moves key → data_store self' !! key = data_store self !! key).

(** The successor list as [_build_successor_list] leaves it. *)
Definition built_ok (self : ChordNode.t) (l : list NodeInfo.t) : Prop :=
  Z.of_nat (length l) ≤ Z.max 0 (replication_factor self - 1) ∧
  NoDup (NodeInfo.id <$> l) ∧
  id self ∉ NodeInfo.id <$> l.

Definition built (self : ChordNode.t) : Prop := built_ok self (successor_list self).

(** The successor list of a node that is its own successor. *)
Definition alone (self : ChordNode.t) : Prop := successor_list self = [self_info self].

(** As the specification words the successor list. *)
Definition successor_list_as_specified (self : ChordNode.t) : Prop :=
  Z.of_nat (length (successor_list self)) ≤ replication_factor self - 1 ∧
  NoDup (NodeInfo.id <$> successor_list self) ∧
  id self ∉ NodeInfo.id <$> successor_list self.

(** As the specification words [Put] at a node that is not the owner: the
    request goes to the node FindSuccessor returns and never into the local
    primary store. *)
Definition Put_forwarded_as_specified (_create_stub : NodeInfo.t → ChordServiceStub.t)
    (self : ChordNode.t) (request : PutRequest.t) (timestamp : Z) (t : nat) : Prop :=
  let key := PutRequest.key request in
  PutRequest.is_replica request = false →
  is_owner self key = false →
  let self0 := set_operations_count (operations_count self + 1) self in
  let '(find_resp, _, t1) :=
    FindSuccessor _create_stub self0 (FindSuccessorRequest.mk (_hash self key)) t in
  let target := FindSuccessorResponse.node find_resp in
  let '(resp, self', _) := Put _create_stub self request timestamp t in
  data_store self' !! key = data_store self !! key ∧
  match ChordServiceStub.Put (_create_stub target) t1 request with
  | inr response => resp = response
  | inl e =>
      PutResponse.success resp = false ∧
      PutResponse.message resp = "Routing failed: " +:+ e
  end.

(** What a computation returns, whatever the clock reads. *)
Definition always {A} (c : Rpc A) (P : A → Prop) : Prop := ∀ t, P (c t).1.

(** ** More of the node: Get, the fix-fingers loop *)

Module GetRequest.
Record t := mk { key : string }.
End GetRequest.

Module GetResponse.
Record t := mk { found : bool; value : string; version : Z }.
End GetResponse.

Section Reads.

Variable _create_stub : NodeInfo.t → ChordServiceStub.t.

(** The [Get] method of the stub that [_create_stub] makes for a peer. *)
Variable stub_Get : NodeInfo.t → nat → GetRequest.t → exn + GetResponse.t.

(** The loop of [Get] over the successor list: the first answer that found
    the key; a failed call goes on to the next entry. *)
Fixpoint get_from_successors (self : ChordNode.t) (request : GetRequest.t)
    (l : list NodeInfo.t) : Rpc (option GetResponse.t) :=
  match l with
  | [] => ret None
  | succ :: rest =>
      if NodeInfo.id succ =? id self then get_from_successors self request rest
      else
        let* r := call (λ t, stub_Get succ t request) in
        match r with
        | inr response =>
            if GetResponse.found response then ret (Some response)
            else get_from_successors self request rest
        | inl _ => get_from_successors self request rest
        end
  end.

Definition Get (self : ChordNode.t) (request : GetRequest.t)
    : Rpc (GetResponse.t * ChordNode.t) :=
  let key := GetRequest.key request in
  let key_hash := _hash self key in
  let self := set_operations_count (operations_count self + 1) self in
  match data_store self !! key with
  | Some item =>
      ret (GetResponse.mk true (DataItem.value item) (DataItem.version item), self)
  | None =>
      match replica_store self !! key with
      | Some item =>
          ret (GetResponse.mk true (DataItem.value item) (DataItem.version item), self)
      | None =>
          let* found := get_from_successors self request (successor_list self) in
          match found with
          | Some response => ret (response, self)
          | None =>
              let responsible :=
                match predecessor self with
                | Some p => _in_range key_hash (NodeInfo.id p) (id self) true
                | None => true
                end in
              if negb responsible then
                let find_req := FindSuccessorRequest.mk key_hash in
                let* (find_resp, self) := FindSuccessor _create_stub self find_req in
                let node := FindSuccessorResponse.node find_resp in
                if negb (NodeInfo.id node =? id self) then
                  let* r := call (λ t, stub_Get node t request) in
                  match r with
                  | inr response => ret (response, self)
                  | inl _ => ret (GetResponse.mk false "" 0, self)
                  end
                else ret (GetResponse.mk false "" 0, self)
              else ret (GetResponse.mk false "" 0, self)
          end
      end
  end.

(** [ticks] turns of the loop of [_fix_fingers_loop], from the index
    [next_finger]; with [m = 0] the remainder raises, the exception is
    swallowed and the index stays. *)
Fixpoint _fix_fingers_loop (self : ChordNode.t) (next_finger ticks : nat)
    : Rpc (ChordNode.t * nat) :=
  match ticks with
  | O => ret (self, next_finger)
  | S ticks =>
      let* self := _fix_finger _create_stub self next_finger in
      let next_finger :=
        if Nat.eqb (m self) 0 then next_finger
        else Nat.modulo (next_finger + 1) (m self) in
      _fix_fingers_loop self next_finger ticks
  end.

End Reads.

(** Two networks that differ at most in the peers carrying the identifier
    [i]. *)
Definition same_peers (i : Z) (stub1 stub2 : NodeInfo.t → ChordServiceStub.t) : Prop :=
  ∀ n, NodeInfo.id n ≠ i → stub1 n = stub2 n.

(** A network on which no liveness probe succeeds. *)
Definition no_peer_alive (stub : NodeInfo.t → ChordServiceStub.t) : Prop :=
  ∀ n t, match ChordServiceStub.Ping (stub n) t with
         | inr response => PingResponse.alive response = false
         | inl _ => True
         end.

(** The network [stub] with the peers that carry the identifier [i] cut
    off. *)
Definition deaf_to (i : Z) (stub : NodeInfo.t → ChordServiceStub.t)
    : NodeInfo.t → ChordServiceStub.t :=
  λ n, if NodeInfo.id n =? i then unreachable n else stub n.

(** Whether [_promote_replicas_on_failure] promotes a key: the owner test
    of Put, except that a node without predecessor promotes nothing. *)
Definition promotes (self : ChordNode.t) (key : string) : bool :=
  match predecessor self with
  | Some p => _in_range (_hash self key) (NodeInfo.id p) (id self) true
  | None => false
  end.

(** An entry of the finger table that holds a node. *)
Definition filled (self : ChordNode.t) (i : nat) : Prop :=
  ∃ n, finger_table self !! i = Some (Some n).

(** [node_5000] after a Notify that carries its own identifier. *)
Definition node_5000_own_predecessor : ChordNode.t :=
  (Notify node_5000 (NotifyRequest.mk (peer 5000))).1.2.

(** * Properties *)

Lemma always_ret {A} (a : A) (P : A → Prop) : P a → always (ret a) P.
Proof. by intros H t. Qed.

Lemma always_bind {A B} (c : Rpc A) (k : A → Rpc B) (Q : A → Prop) (P : B → Prop) :
  always c Q → (∀ a, Q a → always (k a) P) → always (bind c k) P.
Proof.
  intros Hc Hk t. unfold bind. specialize (Hc t).
  destruct (c t) as [a t']. by apply Hk.
Qed.

Lemma always_then {A B} (c : Rpc A) (k : A → Rpc B) (P : B → Prop) :
  (∀ a, always (k a) P) → always (bind c k) P.
Proof.
  intros Hk. apply always_bind with (Q := λ _, True); [done|]. intros a _. apply Hk.
Qed.

(** ** The hash, on the test vectors of FIPS 180 and on a node key *)

Example sha1_abc :
  hashlib.from_bytes_big (hashlib.sha1 (hashlib.encode "abc"))
  = 0xa9993e364706816aba3e25717850c26c9cd0d89d.
Proof. vm_compute. reflexivity. Qed.

Example sha1_two_blocks :
  hashlib.from_bytes_big
    (hashlib.sha1
       (hashlib.encode "abcdbcdecdefdefgefghfghighijhijkijkljklmklmnlmnomnopnopq"))
  = 0x84983e441c3bd26ebaae4aa1f95129e5e54670f1.
Proof. vm_compute. reflexivity. Qed.

Example hash_of_node_key : id node_5000 = 3775564106.
Proof. vm_compute. reflexivity. Qed.

(** ** The interval primitive *)

Ltac range_cases :=
  unfold _in_range;
  repeat match goal with
    | |- context [?a =? ?b] => destruct (Z.eqb_spec a b)
    | |- context [?a <? ?b] => destruct (Z.ltb_spec a b)
    | |- context [?a <=? ?b] => destruct (Z.leb_spec a b)
    | |- context [?a >? ?b] => rewrite (Z.gtb_ltb a b)
    end; simpl.

(** C5. For all identifiers x, a, b: when a = b, [_in_range] returns its
    [inclusive] argument; when a < b it holds exactly for a < x < b, and for
    a < x ≤ b when inclusive; when a > b (the arc wraps) it holds exactly for
    x > a or x < b, and for x > a or x ≤ b when inclusive. *)
Theorem in_range_cases (x a b : Z) :
  (a = b → ∀ inclusive, _in_range x a b inclusive = inclusive) ∧
  (a < b →
     (_in_range x a b false = true ↔ a < x < b) ∧
     (_in_range x a b true = true ↔ a < x ≤ b)) ∧
  (a > b →
     (_in_range x a b false = true ↔ x > a ∨ x < b) ∧
     (_in_range x a b true = true ↔ x > a ∨ x ≤ b)).
Proof.
  split; [|split].
  - intros -> inclusive. unfold _in_range. by rewrite Z.eqb_refl.
  - intros Hlt. split; range_cases; intuition (lia || congruence).
  - intros Hgt. split; range_cases; intuition (lia || congruence).
Qed.

Lemma in_range_inclusive_arc x a b : _in_range x a b true = true ↔ in_arc x a b.
Proof. unfold in_arc. range_cases; intuition (lia || congruence). Qed.

Section Properties.

Variable _create_stub : NodeInfo.t → ChordServiceStub.t.

(** ** SyncReplica *)

(** C8. SyncReplica answers success and leaves in the replica store, under
    the key of the request, exactly the item of the request, whatever was
    there before; other keys and the primary store are untouched; sent a
    second time, the same request gives the same answer and the same node. *)
Theorem SyncReplica_overwrites (self : ChordNode.t) (request : SyncReplicaRequest.t) :
  let key := SyncReplicaRequest.key request in
  let item :=
    DataItem.mk key (SyncReplicaRequest.value request)
      (SyncReplicaRequest.version request)
      (SyncReplicaRequest.timestamp request) in
  let '(resp, self') := SyncReplica self request in
  SyncReplicaResponse.success resp = true ∧
  replica_store self' !! key = Some item ∧
  (∀ k, k ≠ key → replica_store self' !! k = replica_store self !! k) ∧
  data_store self' = data_store self ∧
  SyncReplica self' request = (resp, self').
Proof.
  unfold SyncReplica; simpl. repeat split.
  - apply lookup_insert_eq.
  - intros k Hk. by apply lookup_insert_ne.
  - unfold set_replica_store; simpl. by rewrite insert_insert_eq.
Qed.

(** ** Delete *)

(** The fan-out of Delete returns nothing and makes one call per successor
    other than the node itself. *)
Lemma delete_replicas_ticks (stub : NodeInfo.t → ChordServiceStub.t) self key l t :
  delete_replicas stub self key l t
  = (tt, Nat.add t (length (List.filter (λ succ, negb (NodeInfo.id succ =? id self)) l))).
Proof.
  revert t. induction l as [|succ rest IH]; intros t; simpl.
  - unfold ret. f_equal. lia.
  - destruct (negb (NodeInfo.id succ =? id self)); simpl.
    + unfold bind, call. rewrite IH. f_equal. lia.
    + apply IH.
Qed.

(** C9. Delete reports success exactly when the key is in the store it is
    aimed at (the replica store when [is_replica], else the primary store);
    it removes the key from that store and leaves the other store as it
    was; when it reports failure the message is "Not found" and both stores
    are as before. *)
Theorem Delete_targets_one_store (self : ChordNode.t) (request : DeleteRequest.t) :
  let key := DeleteRequest.key request in
  always (Delete _create_stub self request)
    (λ '(resp, self'),
       if DeleteRequest.is_replica request then
         (DeleteResponse.success resp = true ↔ is_Some (replica_store self !! key)) ∧
         replica_store self' = delete key (replica_store self) ∧
         data_store self' = data_store self ∧
         (DeleteResponse.success resp = false →
            DeleteResponse.message resp = "Not found" ∧
            replica_store self' = replica_store self)
       else
         (DeleteResponse.success resp = true ↔ is_Some (data_store self !! key)) ∧
         data_store self' = delete key (data_store self) ∧
         replica_store self' = replica_store self ∧
         (DeleteResponse.success resp = false →
            DeleteResponse.message resp = "Not found" ∧
            data_store self' = data_store self)).
Proof.
  intros key t. unfold Delete, bind, ret. subst key.
  destruct request as [key [|]]; simpl.
  - destruct (replica_store self !! key) as [item|] eqn:E; simpl.
    + repeat split; eauto; discriminate.
    + rewrite delete_id by done. repeat split; auto.
      * discriminate.
      * by intros [? ?].
  - destruct (data_store self !! key) as [item|] eqn:E; simpl.
    + rewrite delete_replicas_ticks. simpl.
      repeat split; eauto; discriminate.
    + rewrite delete_id by done. repeat split; auto.
      * discriminate.
      * by intros [? ?].
Qed.

(** C10. A primary Delete is answered from the local stores alone: its
    answer, the node it leaves and the number of calls it makes are the
    same over any two networks; and at a node whose primary store lacks the
    key it answers success=false, "Not found", without a single outbound
    call; no lookup, no forwarding. *)
Theorem Delete_not_routed (self : ChordNode.t) (key : string) (t : nat) :
  (∀ other_stub : NodeInfo.t → ChordServiceStub.t,
     Delete _create_stub self (DeleteRequest.mk key false) t
     = Delete other_stub self (DeleteRequest.mk key false) t) ∧
  (data_store self !! key = None →
   Delete _create_stub self (DeleteRequest.mk key false) t
   = (DeleteResponse.mk false "Not found",
      set_operations_count (operations_count self + 1) self, t)).
Proof.
  split.
  - intros other_stub. unfold Delete, bind, ret. simpl.
    destruct (data_store self !! key); [|done].
    by rewrite !delete_replicas_ticks.
  - intros Hnone. unfold Delete, bind, ret. simpl. by rewrite Hnone.
Qed.

(** ** TransferKeys *)

(** The loop of TransferKeys over the keys of [l], from a store that holds
    the entries of [l]: the items moved, the store left, and their sizes. *)
Lemma transfer_fold self s e (l : list (string * DataItem.t)) :
  ∀ items (st : gmap string DataItem.t),
    NoDup l.*1 →
    (∀ k v, (k, v) ∈ l → st !! k = Some v) →
    ∃ items' st',
      foldl (transfer_step self s e) (items, st) l.*1 = (items', st') ∧
      items' = items ++ (List.filter (λ kv, _in_range (_hash self kv.1) s e true) l).*2 ∧
      (∀ k, k ∈ l.*1 → _in_range (_hash self k) s e true = true → st' !! k = None) ∧
      (∀ k, k ∉ l.*1 ∨ _in_range (_hash self k) s e true = false → st' !! k = st !! k) ∧
      (length items' + size st' = length items + size st)%nat.
Proof.
  induction l as [|[k v] l IH]; intros items st Hnd Hagree.
  - exists items, st. rewrite app_nil_r. repeat split; auto.
    by intros k ?%elem_of_nil.
  - rewrite fmap_cons in Hnd. apply NoDup_cons in Hnd as [Hk Hnd].
    assert (Hkv : st !! k = Some v) by (apply Hagree; left).
    rewrite fmap_cons. cbn [foldl transfer_step fst List.filter].
    destruct (_in_range (_hash self k) s e true) eqn:Hsel.
    + rewrite Hkv.
      destruct (IH (items ++ [v]) (delete k st) Hnd)
        as (items' & st' & Hf & Hi & Hgone & Hkept & Hn).
      { intros k' v' Hin. rewrite lookup_delete_ne.
        - apply Hagree. by right.
        - intros ->. apply Hk. apply list_elem_of_fmap. by exists (k', v'). }
      exists items', st'. split; [done|]. split; [|split; [|split]].
      * rewrite Hi, fmap_cons. by rewrite <- app_assoc.
      * intros k' Hin Hk'. apply elem_of_cons in Hin as [->|Hin].
        -- rewrite Hkept by (by left). apply lookup_delete_eq.
        -- by apply Hgone.
      * intros k' Hk'. assert (k' ≠ k).
        { intros ->. destruct Hk' as [Hk'|Hk']; [|congruence]. apply Hk'. left. }
        rewrite Hkept, lookup_delete_ne; [done..|].
        destruct Hk' as [Hk'|Hk']; [left|by right].
        intros Hin. apply Hk'. by right.
      * rewrite Hn, length_app. simpl.
        pose proof (map_size_delete k st) as Hd. rewrite Hkv in Hd. simpl in Hd.
        assert (size st ≠ 0%nat).
        { intros Hz. apply map_size_empty_inv in Hz. subst.
          by rewrite lookup_empty in Hkv. }
        lia.
    + destruct (IH items st Hnd) as (items' & st' & Hf & Hi & Hgone & Hkept & Hn).
      { intros k' v' Hin. apply Hagree. by right. }
      exists items', st'. split; [done|]. split; [|split; [|split]]; auto.
      * intros k' Hin Hk'. apply elem_of_cons in Hin as [->|Hin]; [congruence|].
        by apply Hgone.
      * intros k' Hk'. destruct (decide (k' = k)) as [->|Hne].
        -- apply Hkept. by left.
        -- apply Hkept. destruct Hk' as [Hk'|Hk']; [left|by right].
           intros Hin. apply Hk'. by right.
Qed.

(** C2, as the code has it. TransferKeys returns exactly the items of the
    primary-store keys whose hashes lie on the arc (start, end], start
    excluded and end included (every key when start = end), removes
    exactly those keys from the primary store and leaves every other key,
    and the replica store, in place. *)
Theorem TransferKeys_arc (self : ChordNode.t) (request : TransferKeysRequest.t) :
  let moves key :=
    in_arc (_hash self key) (TransferKeysRequest.start_id request)
      (TransferKeysRequest.end_id request) in
  let '(resp, self') := TransferKeys self request in
  (∀ item, item ∈ TransferKeysResponse.items resp ↔
           ∃ key, data_store self !! key = Some item ∧ moves key) ∧
  (∀ key, moves key → data_store self' !! key = None) ∧
  (∀ key, ¬ moves key → data_store self' !! key = data_store self !! key) ∧
  (length (TransferKeysResponse.items resp) + size (data_store self')
   = size (data_store self))%nat ∧
  replica_store self' = replica_store self.
Proof.
  intros moves. unfold TransferKeys, dict_keys.
  destruct (transfer_fold self (TransferKeysRequest.start_id request)
              (TransferKeysRequest.end_id request)
              (map_to_list (data_store self)) [] (data_store self))
    as (items' & st' & Hf & Hi & Hgone & Hkept & Hn).
  { apply NoDup_fst_map_to_list. }
  { intros k v Hin. by apply elem_of_map_to_list. }
  rewrite Hf. simpl in *. repeat split.
  - intros Hin. subst items'. apply list_elem_of_fmap in Hin as [[k v] [-> Hin]].
    apply list_elem_of_In, filter_In in Hin as [Hin Hsel].
    exists k. split.
    + apply elem_of_map_to_list. by apply list_elem_of_In.
    + by apply in_range_inclusive_arc.
  - intros (k & Hk & Hm). subst items'. apply list_elem_of_fmap.
    exists (k, item). split; [done|]. apply list_elem_of_In, filter_In. split.
    + apply list_elem_of_In. by apply elem_of_map_to_list.
    + by apply in_range_inclusive_arc.
  - intros k Hm. apply in_range_inclusive_arc in Hm.
    destruct (data_store self !! k) as [v|] eqn:Hk.
    + apply Hgone; [|done]. apply list_elem_of_fmap. exists (k, v).
      split; [done|]. by apply elem_of_map_to_list.
    + rewrite Hkept; [done|]. left. intros Hin.
      apply list_elem_of_fmap in Hin as [[k' v] [-> Hin]].
      apply elem_of_map_to_list in Hin. simpl in Hk. congruence.
  - intros k Hm. apply Hkept. right.
    destruct (_in_range _ _ _ _) eqn:E; [|done].
    exfalso. apply Hm. by apply in_range_inclusive_arc.
  - lia.
Qed.

(** ** The successor list *)

Lemma built_ok_nil self : built_ok self [].
Proof.
  split; [simpl; lia|]. split; [constructor|]. by intros ?%elem_of_nil.
Qed.

(** Appending a live node that was not seen, while there is room. *)
Lemma built_ok_snoc self successors (seen_ids : gset Z) current :
  (∀ n, n ∈ successors → NodeInfo.id n ∈ seen_ids) →
  id self ∈ seen_ids →
  NodeInfo.id current ∉ seen_ids →
  Z.of_nat (length successors) < replication_factor self - 1 →
  built_ok self successors →
  built_ok self (successors ++ [current]).
Proof.
  intros Hseen Hself Hcur Hroom (Hlen & Hnd & Hnot). split; [|split].
  - rewrite length_app. simpl. lia.
  - rewrite fmap_app. apply NoDup_app. split; [done|]. split.
    + intros x Hx Hx'. apply list_elem_of_singleton in Hx'. subst x.
      apply list_elem_of_fmap in Hx as (n & Hn & Hin).
      apply Hcur. rewrite Hn. by apply Hseen.
    + apply NoDup_singleton.
  - rewrite fmap_app. intros Hin. apply elem_of_app in Hin as [Hin|Hin]; [done|].
    apply list_elem_of_singleton in Hin. apply Hcur. by rewrite <- Hin.
Qed.

(** The loop keeps: every collected node is in [seen_ids], and so is the
    node itself. *)
Lemma build_loop_ok self attempts :
  ∀ successors (seen_ids : gset Z) current,
    (∀ n, n ∈ successors → NodeInfo.id n ∈ seen_ids) →
    id self ∈ seen_ids →
    built_ok self successors →
    always (build_loop _create_stub self attempts successors seen_ids current)
           (built_ok self).
Proof.
  induction attempts as [|attempts IH];
    intros successors seen_ids current Hseen Hself Hok; simpl;
    [by apply always_ret|].
  destruct (Z.geb_spec (Z.of_nat (length successors)) (replication_factor self - 1))
    as [Hfull|Hroom]; [by apply always_ret|].
  case_decide as Hcur; [by apply always_ret|].
  assert (Hok' : built_ok self (successors ++ [current]))
    by (by apply built_ok_snoc with seen_ids).
  assert (Hseen' : ∀ n, n ∈ successors ++ [current] →
                        NodeInfo.id n ∈ seen_ids ∪ {[NodeInfo.id current]}).
  { intros n Hin. apply elem_of_app in Hin as [Hin|Hin].
    - apply elem_of_union_l. by apply Hseen.
    - apply list_elem_of_singleton in Hin. subst n. apply elem_of_union_r.
      by apply elem_of_singleton. }
  apply always_then. intros [|]; apply always_then; intros [e|resp];
    try by apply always_ret.
  - case_decide; [by apply always_ret|].
    apply IH; [done| |done]. by apply elem_of_union_l.
  - case_decide; by apply IH.
Qed.

Lemma _build_successor_list_ok self :
  always (_build_successor_list _create_stub self) (built_ok self).
Proof.
  unfold _build_successor_list.
  destruct (NodeInfo.id (successor self) =? id self).
  - apply always_ret, built_ok_nil.
  - apply build_loop_ok.
    + by intros n ?%elem_of_nil.
    + by apply elem_of_singleton.
    + apply built_ok_nil.
Qed.

(** [self.successor_list = self._build_successor_list()] *)
Lemma rebuilt self :
  always (bind (_build_successor_list _create_stub self)
               (λ l, ret (set_successor_list l self))) built.
Proof.
  eapply always_bind; [apply _build_successor_list_ok|].
  intros l Hl. by apply always_ret.
Qed.

Lemma backup_successor_shape self l :
  always (backup_successor _create_stub self l) (λ self', built self' ∨ alone self').
Proof.
  induction l as [|succ rest IH]; simpl.
  - apply always_ret. by right.
  - destruct (negb (NodeInfo.id succ =? id self)); [|apply IH].
    apply always_then. intros [|]; [|apply IH].
    intros t. left. apply (rebuilt (set_successor succ self)).
Qed.

(** Promotion moves items between the stores and nothing else. *)
Lemma promote_fold_routing l :
  ∀ self promoted,
    let self' := (foldl promote_step (self, promoted) l).1 in
    successor_list self' = successor_list self ∧ id self' = id self ∧
    address self' = address self ∧ port self' = port self ∧
    replication_factor self' = replication_factor self.
Proof.
  induction l as [|[key item] l IH]; intros self promoted; simpl; [done|].
  destruct (predecessor self) as [p|]; [|apply IH].
  destruct (_in_range _ _ _ _); [|apply IH].
  match goal with |- context [foldl promote_step (?s, ?p) l] =>
    destruct (IH s p) as (? & ? & ? & ? & ?) end.
  done.
Qed.

Lemma _promote_replicas_on_failure_shape self failed :
  always (_promote_replicas_on_failure _create_stub self failed)
         (λ self', (built self → built self') ∧ (alone self → alone self')).
Proof.
  unfold _promote_replicas_on_failure.
  pose proof (promote_fold_routing (map_to_list (replica_store self)) self []) as H.
  destruct (foldl promote_step _ _) as [self1 promoted]. simpl in H.
  destruct H as (Hl & Hi & Ha & Hp & Hr).
  apply always_then. intros _. apply always_ret.
  unfold built, built_ok, alone, self_info. rewrite Hl, Hi, Ha, Hp, Hr. done.
Qed.

Lemma _stabilize_shape self :
  always (_stabilize _create_stub self)
         (λ self', successor_list self' = successor_list self
                   ∨ built self' ∨ alone self').
Proof.
  unfold _stabilize.
  destruct (NodeInfo.id (successor self) =? id self); [apply always_ret; by left|].
  apply always_then. intros [|]; simpl.
  - apply always_then. intros [e|resp].
    + intros t. right. apply backup_successor_shape.
    + apply always_then. intros [e|ack].
      * intros t. right. apply backup_successor_shape.
      * intros t. right. left. apply rebuilt.
  - eapply always_bind; [apply backup_successor_shape|].
    intros self1 Hshape t. right.
    destruct (_promote_replicas_on_failure_shape self1 (NodeInfo.id (successor self)) t)
      as [Hb Ha].
    destruct Hshape; [left; by apply Hb | right; by apply Ha].
Qed.

Lemma Join_shape self request :
  always (Join _create_stub self request)
         (λ '(_, self'), successor_list self' = successor_list self ∨ built self').
Proof.
  unfold Join. destruct (_ || _).
  - eapply always_bind; [apply _build_successor_list_ok|].
    intros l Hl. apply always_ret. by right.
  - apply always_then. intros [e|response]; apply always_ret; by left.
Qed.

Lemma serve_join_shape node stub :
  always (serve_join _create_stub node stub)
         (λ node', successor_list node' = successor_list node ∨ built node').
Proof.
  unfold serve_join. apply always_then. intros [e|resp]; [apply always_ret; by left|].
  destruct (JoinResponse.success resp); [|apply always_ret; by left].
  intros t. right. apply rebuilt.
Qed.

(** C3, as the code has it. Whatever [_build_successor_list] returns has
    length at most R-1 (none when R < 1), no duplicate identifier and not
    the node itself, and so has the successor list after each operation
    that sets it from there: stabilize, Join, the join at startup, the
    switch to a live backup successor. After construction, and after the
    fallback of successor-failure handling when no backup is alive, the
    successor list is the one-element list holding the node itself. *)
Theorem successor_list_built_or_alone :
  (∀ address port m replication_factor,
     alone (__init__ address port m replication_factor)) ∧
  (∀ self, alone self →
           length (successor_list self) = 1%nat ∧
           NoDup (NodeInfo.id <$> successor_list self) ∧
           id self ∈ NodeInfo.id <$> successor_list self) ∧
  (∀ self, always (_build_successor_list _create_stub self) (built_ok self)) ∧
  (∀ self, always (_handle_successor_failure _create_stub self)
             (λ self', built self' ∨ alone self')) ∧
  (∀ self, always (_stabilize _create_stub self)
             (λ self', successor_list self' = successor_list self
                       ∨ built self' ∨ alone self')) ∧
  (∀ self request, always (Join _create_stub self request)
             (λ '(_, self'), successor_list self' = successor_list self
                             ∨ built self')) ∧
  (∀ node stub, always (serve_join _create_stub node stub)
             (λ node', successor_list node' = successor_list node ∨ built node')).
Proof.
  split; [done|]. split.
  { intros self ->. split; [done|]. split; [apply NoDup_singleton|].
    simpl. by apply list_elem_of_singleton. }
  split; [apply _build_successor_list_ok|].
  split; [intros self; apply backup_successor_shape|].
  split; [apply _stabilize_shape|].
  split; [apply Join_shape | apply serve_join_shape].
Qed.

(** ** FindSuccessor *)

(** The scan for the closest preceding finger does not read the counters. *)
Lemma closest_finger_lookup_count self v key_id upto t :
  closest_finger _create_stub (set_lookup_count v self) key_id upto t
  = closest_finger _create_stub self key_id upto t.
Proof.
  revert t. induction upto as [|i IH]; intros t; simpl; [done|].
  destruct (finger_table self !! i) as [[finger|]|]; try apply IH.
  destruct (_ && _); [|apply IH].
  unfold bind. destruct (_is_node_alive _ _ _) as [[|] t']; [done|apply IH].
Qed.

Lemma closest_in_list_lookup_count self v key_id l t :
  closest_in_list _create_stub (set_lookup_count v self) key_id l t
  = closest_in_list _create_stub self key_id l t.
Proof.
  revert t. induction l as [|succ rest IH]; intros t; simpl; [done|].
  destruct (_ && _); [|apply IH].
  unfold bind. destruct (_is_node_alive _ _ _) as [[|] t']; [done|apply IH].
Qed.

Lemma _closest_preceding_finger_lookup_count self v key_id t :
  _closest_preceding_finger _create_stub (set_lookup_count v self) key_id t
  = _closest_preceding_finger _create_stub self key_id t.
Proof.
  unfold _closest_preceding_finger, bind. simpl.
  rewrite closest_finger_lookup_count.
  destruct (closest_finger _ _ _ _ _) as [[finger|] t1]; [done|].
  rewrite closest_in_list_lookup_count.
  by destruct (closest_in_list _ _ _ _ _) as [[succ|] t2].
Qed.

(** C6. FindSuccessor is a total function of the node, the request and the
    answers of the network: a failed call is an exception value that the
    method handles, so no answer makes it raise. Whenever the reduced key_id
    lies in (self.id, successor.id], or the closest preceding finger is the
    node itself, or the call forwarded to the chosen node fails, it returns
    the successor with path [self.id] and one hop; the only other answer is
    the forwarded one, with self.id put in front of its path and one hop
    added. *)
Theorem FindSuccessor_local_answer (self : ChordNode.t)
    (request : FindSuccessorRequest.t) (t : nat) :
  let key_id := FindSuccessorRequest.key_id request mod max_nodes self in
  let '(next_node, t1) := _closest_preceding_finger _create_stub self key_id t in
  let forwarded := ChordServiceStub.FindSuccessor (_create_stub next_node) t1 request in
  let local := FindSuccessorResponse.mk (successor self) [id self] 1 in
  let answer := (FindSuccessor _create_stub self request t).1.1 in
  (_in_range key_id (id self) (NodeInfo.id (successor self)) true = true
   ∨ NodeInfo.id next_node = id self
   ∨ (∃ e, forwarded = inl e) →
   answer = local) ∧
  (answer = local
   ∨ ∃ response,
       forwarded = inr response ∧
       answer = FindSuccessorResponse.mk
                  (FindSuccessorResponse.node response)
                  (id self :: FindSuccessorResponse.path response)
                  (FindSuccessorResponse.hops response + 1)).
Proof.
  intros key_id.
  destruct (_closest_preceding_finger _ _ _ _) as [next_node t1] eqn:Hnext.
  intros forwarded local answer. subst answer. unfold FindSuccessor.
  fold key_id. simpl.
  destruct (_in_range key_id _ _ true) eqn:Hrange; [by split; [|left]|].
  unfold bind. rewrite _closest_preceding_finger_lookup_count, Hnext.
  destruct (Z.eqb_spec (NodeInfo.id next_node) (id self)) as [Heq|Hne];
    [by split; [|left]|].
  unfold call. fold forwarded. destruct forwarded as [e|response] eqn:Hfwd; simpl.
  - by split; [|left].
  - split; [|right; by exists response].
    intros [?|[?|[e He]]]; done.
Qed.

(** A lookup changes the two counters and nothing else. *)
Lemma FindSuccessor_counts_only self request t :
  ∃ lookups hops,
    (FindSuccessor _create_stub self request t).1.2
    = set_total_hops hops (set_lookup_count lookups self).
Proof.
  unfold FindSuccessor. destruct (_in_range _ _ _ true); [by eexists _, _|].
  unfold bind. destruct (_closest_preceding_finger _ _ _ _) as [next_node t1].
  destruct (_ =? _); [by eexists _, _|].
  unfold call. destruct (ChordServiceStub.FindSuccessor _ _ _); by eexists _, _.
Qed.

(** The finger table has [m] entries at construction, and the only method
    that writes it keeps its length. *)
Lemma finger_table_length :
  (∀ address port m replication_factor,
     length (finger_table (__init__ address port m replication_factor)) = m) ∧
  (∀ self index,
     always (_fix_finger _create_stub self index)
       (λ self', length (finger_table self') = length (finger_table self) ∧
                 m self' = m self)).
Proof.
  split.
  - intros. apply length_replicate.
  - intros self index t. unfold _fix_finger, bind, ret.
    pose proof (FindSuccessor_counts_only self
                  (FindSuccessorRequest.mk
                     ((id self + 2 ^ Z.of_nat index) mod max_nodes self)) t)
      as (lookups & hops & Hself1).
    destruct (FindSuccessor _ _ _ _) as [[resp self1] t1]. simpl in *. subst self1.
    by rewrite length_insert.
Qed.

(** ** Put *)

Lemma store_locally_primary self key value requested timestamp :
  always (store_locally _create_stub self (PutRequest.mk key value false requested) timestamp)
    (λ '(resp, self'),
       PutResponse.success resp = true ∧
       PutResponse.version resp = next_version self key ∧
       data_store self'
       = <[key := DataItem.mk key value (next_version self key) timestamp]>
           (data_store self) ∧
       replica_store self' = replica_store self ∧
       predecessor self' = predecessor self ∧ id self' = id self ∧
       max_nodes self' = max_nodes self).
Proof.
  unfold store_locally. simpl. apply always_then. intros k. by apply always_ret.
Qed.

Lemma Put_primary self key value requested timestamp :
  is_owner self key = true →
  always (Put _create_stub self (PutRequest.mk key value false requested) timestamp)
    (λ '(resp, self'),
       PutResponse.success resp = true ∧
       PutResponse.version resp = next_version self key ∧
       data_store self'
       = <[key := DataItem.mk key value (next_version self key) timestamp]>
           (data_store self) ∧
       replica_store self' = replica_store self ∧
       predecessor self' = predecessor self ∧ id self' = id self ∧
       max_nodes self' = max_nodes self).
Proof.
  intros Hown. unfold Put. simpl.
  unfold is_owner, _hash in Hown. unfold _hash. simpl. rewrite Hown. simpl.
  apply (store_locally_primary (set_operations_count (operations_count self + 1) self)).
Qed.

(** Repeated writes of one key at its owner count up from the next version. *)
Lemma put_all_versions writes :
  ∀ self key,
    is_owner self key = true →
    always (put_all _create_stub self key writes)
      (λ '(responses, _),
         Forall (λ resp, PutResponse.success resp = true) responses ∧
         PutResponse.version <$> responses
         = (λ i, next_version self key + Z.of_nat i) <$> seq 0 (length writes)).
Proof.
  induction writes as [|[value timestamp] writes IH]; intros self key Hown; simpl.
  - by apply always_ret.
  - eapply always_bind; [by apply Put_primary|].
    intros [resp self1] (Hs & Hv & Hd & _ & Hp & Hi & Hm).
    eapply always_bind.
    + apply IH. unfold is_owner, _hash in *. by rewrite Hp, Hi, Hm.
    + intros [responses self2] [Hall Hrs]. apply always_ret. split; [by constructor|].
      cbn [length seq]. rewrite !fmap_cons, Hrs, Hv. f_equal; [lia|].
      rewrite <- (fmap_S_seq 0), <- list_fmap_compose. apply list_fmap_ext.
      intros i x _. simpl. unfold next_version at 1. rewrite Hd, lookup_insert_eq.
      simpl. lia.
Qed.

(** C7. At the owner of a key, Put with is_replica=false stores the
    previous version plus one when the key is in the primary store and 1
    otherwise, and answers success with that version; so writes of one key
    at its owner get the versions 1, 2, 3, ... when the key is new. *)
Theorem Put_primary_versions (self : ChordNode.t) (key : string) :
  is_owner self key = true →
  (∀ value requested timestamp,
     always (Put _create_stub self (PutRequest.mk key value false requested) timestamp)
       (λ '(resp, self'),
          let version :=
            match data_store self !! key with
            | Some item => DataItem.version item + 1
            | None => 1
            end in
          PutResponse.success resp = true ∧
          PutResponse.version resp = version ∧
          data_store self' !! key = Some (DataItem.mk key value version timestamp))) ∧
  (data_store self !! key = None →
   ∀ writes,
     always (put_all _create_stub self key writes)
       (λ '(responses, _),
          Forall (λ resp, PutResponse.success resp = true) responses ∧
          PutResponse.version <$> responses = Z.of_nat <$> seq 1 (length writes))).
Proof.
  intros Hown. split.
  - intros value requested timestamp t.
    pose proof (Put_primary self key value requested timestamp Hown t) as H.
    destruct (Put _ _ _ _ _) as [[resp self'] t']. simpl in *.
    destruct H as (Hs & Hv & Hd & _). fold (next_version self key).
    by rewrite Hd, lookup_insert_eq.
  - intros Hnew writes t.
    pose proof (put_all_versions writes self key Hown t) as H.
    destruct (put_all _ _ _ _ _) as [[responses self'] t']. simpl in *.
    destruct H as [Hall Hrs]. split; [done|]. rewrite Hrs.
    unfold next_version. rewrite Hnew.
    rewrite <- (fmap_S_seq 0), <- list_fmap_compose. apply list_fmap_ext.
    intros i x _. simpl. lia.
Qed.

(** C4, as the code has it. A Put with is_replica=false at a node that is
    not the owner of the key looks the key up with FindSuccessor. When the
    node returned is another node, the Put is forwarded to it and its
    response is returned, the local stores staying as they were; when the
    forwarded call fails, the response is success=false with the message
    "Routing failed: <cause>". When FindSuccessor returns the node itself,
    the Put is not forwarded: it takes the primary path on the local
    store. *)
Theorem Put_not_owner (self : ChordNode.t) (key value : string)
    (requested timestamp : Z) (t : nat) :
  let request := PutRequest.mk key value false requested in
  is_owner self key = false →
  let self0 := set_operations_count (operations_count self + 1) self in
  let '(find_resp, _, t1) :=
    FindSuccessor _create_stub self0 (FindSuccessorRequest.mk (_hash self key)) t in
  let target := FindSuccessorResponse.node find_resp in
  let '(resp, self', _) := Put _create_stub self request timestamp t in
  if NodeInfo.id target =? id self then
    PutResponse.success resp = true ∧
    PutResponse.version resp = next_version self key ∧
    data_store self'
    = <[key := DataItem.mk key value (next_version self key) timestamp]>
        (data_store self)
  else
    data_store self' = data_store self ∧
    replica_store self' = replica_store self ∧
    match ChordServiceStub.Put (_create_stub target) t1 request with
    | inr response => resp = response
    | inl e => resp = PutResponse.mk false ("Routing failed: " +:+ e) 0
    end.
Proof.
  intros request Hown self0.
  pose proof (FindSuccessor_counts_only self0
                (FindSuccessorRequest.mk (_hash self key)) t) as (lookups & hops & Hself1).
  unfold is_owner in Hown. unfold Put. simpl. rewrite Hown. simpl.
  unfold bind at 1. fold self0.
  destruct (FindSuccessor _ _ _ _) as [[find_resp self1] t1]. simpl in Hself1.
  subst self1. simpl.
  destruct (NodeInfo.id (FindSuccessorResponse.node find_resp) =? id self); simpl.
  - pose proof (store_locally_primary
                  (set_total_hops hops (set_lookup_count lookups self0))
                  key value requested timestamp t1) as H.
    fold request in H. destruct (store_locally _ _ _ _ _) as [[resp self'] t'].
    simpl in H. by destruct H as (? & ? & ? & _).
  - unfold bind, call, ret.
    by destruct (ChordServiceStub.Put _ _ _) as [e|response].
Qed.

(** ** Notify and the hand-off of keys *)

Lemma filter_all {A} (f : A → bool) (l : list A) :
  (∀ x, f x = true) → List.filter f l = l.
Proof.
  intros Hf. induction l as [|x l IH]; simpl; [done|]. by rewrite Hf, IH.
Qed.

(** When Notify replaces a predecessor by a different node, the thread it
    starts finds the new node already in [self.predecessor]: the interval
    it tests is (n.id, n.id], the whole ring, and every key of the primary
    store is collected. *)
Lemma Notify_redistributes_whole_store self request old :
  let node := NotifyRequest.node request in
  predecessor self = Some old →
  _in_range (NodeInfo.id node) (NodeInfo.id old) (id self) false = true →
  NodeInfo.id old ≠ NodeInfo.id node →
  let '(_, self', started) := Notify self request in
  started = Some node ∧
  predecessor self' = Some node ∧
  keys_to_transfer self' node = dict_keys (data_store self).
Proof.
  intros node Hold Hbetween Hdiff. unfold Notify. fold node. rewrite Hold, Hbetween.
  destruct (Z.eqb_spec (NodeInfo.id old) (NodeInfo.id node)); [done|]. simpl.
  repeat split. unfold keys_to_transfer. simpl. apply filter_all.
  intros key. unfold _in_range. by rewrite Z.eqb_refl.
Qed.


End Properties.

(** * The properties at concrete nodes *)

(** C1 at a concrete node. [node_5000_with_keys] has the predecessor of port
    5001 and holds "alpha" and "x" in its primary store. Notify from the
    node of port 5002, which lies between that predecessor and the node,
    replaces the predecessor and starts the hand-off to the new node. The
    hash of "x" is outside (old_predecessor.id, n.id], it belongs to the
    node itself; yet "x" is among the keys collected, and once the new
    node has taken the Puts it is gone from the local primary store. *)
Theorem Notify_hands_off_key_outside_interval :
  let old := peer 5001 in
  let n := peer 5002 in
  predecessor node_5000_with_keys = Some old ∧
  let '(_, node, started) := Notify node_5000_with_keys (NotifyRequest.mk n) in
  started = Some n ∧
  _in_range (_hash node "x") (NodeInfo.id old) (NodeInfo.id n) true = false ∧
  is_owner node "x" = true ∧
  In "x" (keys_to_transfer node n) ∧
  is_Some (data_store node !! "x") ∧
  data_store (_redistribute_keys_on_join accepting node n 0%nat).1 !! "x" = None.
Proof.
  vm_compute. repeat split; auto. eexists. reflexivity.
Qed.

(** C2 as the specification words it fails: "alpha" hashes to 2514469785,
    the start of the closed interval asked for, and is not transferred. *)
Lemma TransferKeys_closed_interval_fails :
  ¬ TransferKeys_closed_interval node_5000_with_keys
      (TransferKeysRequest.mk 2514469785 2514469786 (peer 5001)).
Proof.
  unfold TransferKeys_closed_interval.
  destruct (TransferKeys _ _) as [resp self'] eqn:E.
  vm_compute in E. injection E as <- <-.
  intros [H _].
  assert (Hhash : _hash node_5000_with_keys "alpha" = 2514469785)
    by (vm_compute; reflexivity).
  destruct (H (DataItem.mk "alpha" "1" 1 1000)) as [_ Hin].
  cbn [TransferKeysResponse.items] in Hin. eapply elem_of_nil, Hin.
  exists "alpha". split; [vm_compute; reflexivity|].
  rewrite Hhash. unfold in_closed_interval.
  cbn [TransferKeysRequest.start_id TransferKeysRequest.end_id].
  case_decide; lia.
Qed.

(** C3 as the specification words it fails at construction: the successor
    list of a new node holds the node itself. *)
Lemma successor_list_as_specified_fails :
  ¬ successor_list_as_specified node_5000.
Proof.
  intros (_ & _ & Hnot). apply Hnot. apply list_elem_of_here.
Qed.

(** C4 as the specification words it fails: [node_5000_after_notify] is
    not the owner of "gamma", FindSuccessor returns the node itself (it is
    its own successor), and the key goes into the local primary store. *)
Lemma Put_forwarded_as_specified_fails :
  ¬ Put_forwarded_as_specified unreachable node_5000_after_notify
      (PutRequest.mk "gamma" "1" false 0) 1000 0%nat.
Proof.
  intros H.
  assert (Hown : is_owner node_5000_after_notify "gamma" = false)
    by (vm_compute; reflexivity).
  specialize (H eq_refl Hown). vm_compute in H.
  destruct H as [H _]. discriminate H.
Qed.

(** ** Instances of the theorems *)

(** The three cases of the interval test, at 5 in (3, 3], 5 in (3, 9] and
    1 in the wrapping (9, 3). *)
Lemma in_range_cases_witness :
  _in_range 5 3 3 true = true ∧
  (_in_range 5 3 9 true = true ↔ 3 < 5 ≤ 9) ∧
  (_in_range 1 9 3 false = true ↔ 1 > 9 ∨ 1 < 3).
Proof.
  destruct (in_range_cases 5 3 3) as (Heq & _ & _).
  destruct (in_range_cases 5 3 9) as (_ & Hlt & _).
  destruct (in_range_cases 1 9 3) as (_ & _ & Hgt).
  split; [apply Heq; reflexivity|]. split.
  - apply Hlt. lia.
  - apply Hgt. lia.
Defined.

(** The three local answers of FindSuccessor: the key is in range at a node
    that is its own successor; no peer answers the liveness probe, so the
    closest preceding finger is the node itself; the peer is alive and the
    forwarded lookup times out. *)
Lemma FindSuccessor_local_answer_witness :
  (FindSuccessor unreachable node_5000 (FindSuccessorRequest.mk 7) 0%nat).1.1
  = FindSuccessorResponse.mk (successor node_5000) [id node_5000] 1 ∧
  (FindSuccessor unreachable node_5000_in_ring (FindSuccessorRequest.mk 2514469785) 0%nat).1.1
  = FindSuccessorResponse.mk (peer 5005) [id node_5000] 1 ∧
  (FindSuccessor accepting node_5000_in_ring (FindSuccessorRequest.mk 2514469785) 0%nat).1.1
  = FindSuccessorResponse.mk (peer 5005) [id node_5000] 1.
Proof.
  split; [|split].
  - pose proof (FindSuccessor_local_answer unreachable node_5000
                  (FindSuccessorRequest.mk 7) 0%nat) as H.
    vm_compute in H. vm_compute. apply (proj1 H). left. reflexivity.
  - pose proof (FindSuccessor_local_answer unreachable node_5000_in_ring
                  (FindSuccessorRequest.mk 2514469785) 0%nat) as H.
    vm_compute in H. vm_compute. apply (proj1 H). right. left. reflexivity.
  - pose proof (FindSuccessor_local_answer accepting node_5000_in_ring
                  (FindSuccessorRequest.mk 2514469785) 0%nat) as H.
    vm_compute in H. vm_compute. apply (proj1 H). right. right. eexists. reflexivity.
Defined.

(** Three writes of "alpha" at the new node, which owns every key. *)
Lemma Put_primary_versions_witness :
  is_owner node_5000 "alpha" = true ∧
  PutResponse.version
    <$> (put_all unreachable node_5000 "alpha" [("1", 10); ("2", 20); ("3", 30)] 0%nat).1.1
  = [1; 2; 3].
Proof.
  assert (Hown : is_owner node_5000 "alpha" = true) by reflexivity.
  split; [exact Hown|].
  destruct (Put_primary_versions unreachable node_5000 "alpha" Hown) as [_ Hseq].
  specialize (Hseq eq_refl [("1", 10); ("2", 20); ("3", 30)] 0%nat).
  vm_compute in Hseq. vm_compute. apply Hseq.
Defined.

(** Delete of a key the new node does not hold. *)
Lemma Delete_not_routed_witness :
  data_store node_5000 !! "alpha" = None ∧
  Delete accepting node_5000 (DeleteRequest.mk "alpha" false) 0%nat
  = (DeleteResponse.mk false "Not found",
     set_operations_count (operations_count node_5000 + 1) node_5000, 0%nat).
Proof.
  split; [reflexivity|].
  apply (Delete_not_routed accepting node_5000 "alpha" 0%nat). reflexivity.
Defined.

(** Put of a key the node does not own: forwarded to the successor of port
    5005 in a ring, and kept locally by a node that is its own successor. *)
Lemma Put_not_owner_witness :
  is_owner node_5000_in_ring "alpha" = false ∧
  (Put accepting node_5000_in_ring (PutRequest.mk "alpha" "v" false 0) 5 0%nat).1.1
  = PutResponse.mk true "Stored with 2 replicas" 1 ∧
  is_owner node_5000_after_notify "gamma" = false ∧
  PutResponse.version
    (Put unreachable node_5000_after_notify (PutRequest.mk "gamma" "1" false 0) 1000 0%nat).1.1
  = next_version node_5000_after_notify "gamma".
Proof.
  assert (Hown : is_owner node_5000_in_ring "alpha" = false)
    by (vm_compute; reflexivity).
  assert (Hown' : is_owner node_5000_after_notify "gamma" = false)
    by (vm_compute; reflexivity).
  split; [exact Hown|]. split; [|split; [exact Hown'|]].
  - pose proof (Put_not_owner accepting node_5000_in_ring "alpha" "v" 0 5 0%nat Hown) as H.
    vm_compute in H. vm_compute. apply H.
  - pose proof (Put_not_owner unreachable node_5000_after_notify "gamma" "1" 0 1000 0%nat Hown')
      as H.
    vm_compute in H. destruct H as (_ & Hversion & _).
    vm_compute. exact Hversion.
Defined.

(** The new node is alone; after the peer of port 5005 has joined through
    it, its successor list is a built one. *)
Lemma successor_list_built_or_alone_witness :
  alone node_5000 ∧
  length (successor_list node_5000) = 1%nat ∧
  built (Join accepting node_5000 (JoinRequest.mk (peer 5005)) 0%nat).1.2.
Proof.
  destruct (successor_list_built_or_alone accepting)
    as (Hinit & Halone & _ & _ & _ & Hjoin & _).
  split; [apply Hinit|]. split; [apply (Halone node_5000 (Hinit _ _ _ _))|].
  pose proof (Hjoin node_5000 (JoinRequest.mk (peer 5005)) 0%nat) as H.
  destruct (Join _ _ _ _) as [[resp self'] t'] eqn:E. cbn [fst snd] in *.
  destruct H as [H|H]; [|exact H].
  exfalso. vm_compute in E. injection E as _ <- _. vm_compute in H. discriminate H.
Defined.

(** * Further properties of the node *)

(** ** Identifier arithmetic *)

(** X1. For two different identifiers a and b the arcs (a, b] and (b, a]
    split the ring: every identifier lies in exactly one of them; the open
    arcs (a, b) and (b, a) do the same for the identifiers other than a
    and b. *)
Theorem in_range_arcs_partition (x a b : Z) :
  a ≠ b →
  _in_range x a b true = negb (_in_range x b a true) ∧
  (x ≠ a → x ≠ b → _in_range x a b false = negb (_in_range x b a false)).
Proof.
  intros Hab. split; [|intros Hxa Hxb]; range_cases; try lia;
    repeat match goal with
      | |- context [?u <? ?v] => destruct (Z.ltb_spec u v)
      | |- context [?u <=? ?v] => destruct (Z.leb_spec u v)
      end; simpl; try reflexivity; lia.
Qed.

(** X2. Identifiers stay on the ring: the identifier of a constructed node
    and the hash of every key at it are at least 0 and below 2^m, so the
    reduction FindSuccessor applies to a key hash leaves it as it is. *)
Theorem hash_on_ring (address : string) (port : Z) (m : nat)
    (replication_factor : Z) (key : string) :
  let self := __init__ address port m replication_factor in
  0 ≤ id self < 2 ^ Z.of_nat m ∧
  0 ≤ _hash self key < 2 ^ Z.of_nat m ∧
  _hash self key mod max_nodes self = _hash self key.
Proof.
  intros self.
  assert (Hpos : 0 < 2 ^ Z.of_nat m) by (apply Z.pow_pos_nonneg; lia).
  assert (Hid : 0 ≤ id self < 2 ^ Z.of_nat m) by (apply Z.mod_pos_bound, Hpos).
  assert (Hkey : 0 ≤ _hash self key < 2 ^ Z.of_nat m)
    by (apply Z.mod_pos_bound, Hpos).
  repeat split; try apply Hid; try apply Hkey.
  apply Z.mod_small. exact Hkey.
Qed.

(** The arc from an identifier to itself, end included, is the whole ring. *)
Lemma in_range_whole_ring (x a : Z) : _in_range x a a true = true.
Proof. unfold _in_range. by rewrite Z.eqb_refl. Qed.

Section MoreProperties.

Variable _create_stub : NodeInfo.t → ChordServiceStub.t.
Variable stub_Get : NodeInfo.t → nat → GetRequest.t → exn + GetResponse.t.

(** ** Lookups *)

Lemma closest_finger_shape self key_id upto :
  always (closest_finger _create_stub self key_id upto)
    (λ found, ∀ n, found = Some n →
       NodeInfo.id n ≠ id self ∧
       _in_range (NodeInfo.id n) (id self) key_id false = true ∧
       Some n ∈ finger_table self).
Proof.
  induction upto as [|i IH]; simpl; [by apply always_ret|].
  destruct (finger_table self !! i) as [[finger|]|] eqn:Hi; try apply IH.
  destruct (Z.eqb_spec (NodeInfo.id finger) (id self)) as [Heq|Hne]; simpl;
    [apply IH|].
  destruct (_in_range _ _ _ false) eqn:Hrange; [|apply IH].
  apply always_then. intros [|]; [|apply IH].
  apply always_ret. intros n [= <-]. repeat split; try done.
  by apply list_elem_of_lookup_2 with i.
Qed.

Lemma closest_in_list_shape self key_id l :
  always (closest_in_list _create_stub self key_id l)
    (λ found, ∀ n, found = Some n →
       NodeInfo.id n ≠ id self ∧
       _in_range (NodeInfo.id n) (id self) key_id false = true ∧
       n ∈ l).
Proof.
  induction l as [|succ rest IH]; simpl; [by apply always_ret|].
  assert (Hrest : always (closest_in_list _create_stub self key_id rest)
            (λ found, ∀ n, found = Some n →
               NodeInfo.id n ≠ id self ∧
               _in_range (NodeInfo.id n) (id self) key_id false = true ∧
               n ∈ succ :: rest)).
  { intros t n Hn. destruct (IH t n Hn) as (? & ? & ?). repeat split; try done.
    by right. }
  destruct (Z.eqb_spec (NodeInfo.id succ) (id self)) as [Heq|Hne]; simpl;
    [apply Hrest|].
  destruct (_in_range _ _ _ false) eqn:Hrange; [|apply Hrest].
  apply always_then. intros [|]; [|apply Hrest].
  apply always_ret. intros n [= <-]. repeat split; try done. by left.
Qed.

(** X3. The closest preceding finger is the node itself, or a node of the
    finger table or of the successor list that carries another identifier
    and lies strictly between the node and the key: a lookup is only ever
    passed on to a node closer to the key. *)
Theorem _closest_preceding_finger_precedes (self : ChordNode.t) (key_id : Z) :
  always (_closest_preceding_finger _create_stub self key_id)
    (λ n, n = self_info self ∨
          (NodeInfo.id n ≠ id self ∧
           _in_range (NodeInfo.id n) (id self) key_id false = true ∧
           (Some n ∈ finger_table self ∨ n ∈ successor_list self))).
Proof.
  unfold _closest_preceding_finger.
  eapply always_bind; [apply closest_finger_shape|].
  intros [finger|] Hfinger.
  - apply always_ret. right. destruct (Hfinger finger eq_refl) as (? & ? & ?).
    repeat split; try done. by left.
  - eapply always_bind; [apply closest_in_list_shape|].
    intros [succ|] Hsucc; apply always_ret; [right|by left].
    destruct (Hsucc succ eq_refl) as (? & ? & ?). repeat split; try done. by right.
Qed.

(** X4. A node that is its own successor answers every lookup with itself,
    in one hop and without a single outbound call. *)
Theorem FindSuccessor_alone (self : ChordNode.t) (request : FindSuccessorRequest.t)
    (t : nat) :
  NodeInfo.id (successor self) = id self →
  FindSuccessor _create_stub self request t
  = (FindSuccessorResponse.mk (successor self) [id self] 1,
     set_total_hops (total_hops self + 1)
       (set_lookup_count (lookup_count self + 1) self),
     t).
Proof.
  intros Halone. unfold FindSuccessor. simpl.
  by rewrite Halone, in_range_whole_ring.
Qed.

(** X5. Every lookup adds one to lookup_count and adds to total_hops the
    hops of the answer it returns, and changes nothing else of the node;
    the path of the answer starts with the node's identifier, and the hops
    count the path whenever they do so in the answers of the peers. *)
Theorem FindSuccessor_accounting (self : ChordNode.t)
    (request : FindSuccessorRequest.t) :
  always (FindSuccessor _create_stub self request)
    (λ '(answer, self'),
       self' = set_total_hops (total_hops self + FindSuccessorResponse.hops answer)
                 (set_lookup_count (lookup_count self + 1) self) ∧
       head (FindSuccessorResponse.path answer) = Some (id self) ∧
       ((∀ n t req resp,
           ChordServiceStub.FindSuccessor (_create_stub n) t req = inr resp →
           FindSuccessorResponse.hops resp
           = Z.of_nat (length (FindSuccessorResponse.path resp))) →
        FindSuccessorResponse.hops answer
        = Z.of_nat (length (FindSuccessorResponse.path answer)))).
Proof.
  unfold FindSuccessor.
  destruct (_in_range _ _ _ true); [by apply always_ret|].
  apply always_then. intros next_node.
  destruct (_ =? _); [by apply always_ret|].
  intros t. unfold bind, call.
  destruct (ChordServiceStub.FindSuccessor _ _ _) as [e|response] eqn:Hfwd; simpl;
    [done|].
  repeat split. intros Hpeers. rewrite (Hpeers _ _ _ _ Hfwd). lia.
Qed.

End MoreProperties.

(** ** Instances *)

(** The arcs between 3 and 9, at 5 and at 1. *)
Lemma in_range_arcs_partition_witness :
  3 ≠ 9 ∧ _in_range 5 3 9 true = negb (_in_range 5 9 3 true).
Proof.
  assert (H : 3 ≠ 9) by lia.
  split; [exact H|]. destruct (in_range_arcs_partition 5 3 9 H) as [Hp _]. exact Hp.
Defined.

(** The lookup of 7 at the new node. *)
Lemma FindSuccessor_alone_witness :
  NodeInfo.id (successor node_5000) = id node_5000 ∧
  (FindSuccessor accepting node_5000 (FindSuccessorRequest.mk 7) 0%nat).2 = 0%nat.
Proof.
  split; [reflexivity|].
  by rewrite (FindSuccessor_alone accepting node_5000 (FindSuccessorRequest.mk 7)
                0%nat eq_refl).
Defined.

Section StoreProperties.

Variable _create_stub : NodeInfo.t → ChordServiceStub.t.
Variable stub_Get : NodeInfo.t → nat → GetRequest.t → exn + GetResponse.t.

(** ** Put, Get and Delete together *)

(** X6. A Put with is_replica=true is never routed: owner or not, the node
    writes the item into its replica store, with the version of the request
    when that is positive and 1 otherwise, leaves the primary store alone
    and makes no outbound call. *)
Theorem Put_replica_local (self : ChordNode.t) (key value : string)
    (requested timestamp : Z) (t : nat) :
  let version := if requested >? 0 then requested else 1 in
  Put _create_stub self (PutRequest.mk key value true requested) timestamp t
  = (PutResponse.mk true "Replica stored" version,
     set_replica_store
       (<[key := DataItem.mk key value version timestamp]> (replica_store self))
       (set_operations_count (operations_count self + 1) self),
     t).
Proof.
  unfold Put. simpl. by rewrite andb_false_r.
Qed.

(** The successors of a node that knows no other node are not asked. *)
Lemma get_from_successors_self self request l t :
  Forall (λ succ, NodeInfo.id succ = id self) l →
  get_from_successors stub_Get self request l t = (None, t).
Proof.
  induction 1 as [|succ rest Hsucc _ IH]; simpl; [done|].
  by rewrite Hsucc, Z.eqb_refl.
Qed.

(** A hit in the primary store. *)
Lemma Get_primary self key item t :
  data_store self !! key = Some item →
  Get _create_stub stub_Get self (GetRequest.mk key) t
  = (GetResponse.mk true (DataItem.value item) (DataItem.version item),
     set_operations_count (operations_count self + 1) self, t).
Proof. intros Hitem. unfold Get. simpl. by rewrite Hitem. Qed.

(** X7. Round trip at the owner: after a Put of a key, a Get of that key at
    the same node returns the value just written with the version the Put
    answered, from the primary store and without an outbound call. *)
Theorem Put_then_Get (self : ChordNode.t) (key value : string)
    (requested timestamp : Z) :
  is_owner self key = true →
  always (Put _create_stub self (PutRequest.mk key value false requested) timestamp)
    (λ '(resp, self1),
       ∀ t, Get _create_stub stub_Get self1 (GetRequest.mk key) t
            = (GetResponse.mk true value (PutResponse.version resp),
               set_operations_count (operations_count self1 + 1) self1, t)).
Proof.
  intros Hown t0.
  pose proof (Put_primary _create_stub self key value requested timestamp Hown t0) as H.
  destruct (Put _ _ _ _ _) as [[resp self1] t1]. simpl in *.
  destruct H as (_ & Hv & Hd & _). intros t.
  rewrite (Get_primary self1 key
             (DataItem.mk key value (next_version self key) timestamp)).
  - simpl. by rewrite Hv.
  - rewrite Hd. apply lookup_insert_eq.
Qed.

(** X8. Round trip of a replica: after SyncReplica, a Get of the key at the
    same node is answered locally, without an outbound call; it returns the
    replica just written when the primary store lacks the key, and the
    primary item, whatever its version, when the primary store has one. *)
Theorem SyncReplica_then_Get (self : ChordNode.t) (request : SyncReplicaRequest.t)
    (t : nat) :
  let key := SyncReplicaRequest.key request in
  let self1 := (SyncReplica self request).2 in
  Get _create_stub stub_Get self1 (GetRequest.mk key) t
  = (match data_store self !! key with
     | Some item =>
         GetResponse.mk true (DataItem.value item) (DataItem.version item)
     | None =>
         GetResponse.mk true (SyncReplicaRequest.value request)
           (SyncReplicaRequest.version request)
     end,
     set_operations_count (operations_count self1 + 1) self1, t).
Proof.
  intros key self1. unfold Get. simpl. fold key.
  destruct (data_store self !! key) as [item|]; [done|].
  by rewrite lookup_insert_eq.
Qed.

(** X9. Get only reads: whatever the network answers, it leaves both stores
    and the routing state (successor, predecessor, successor list, finger
    table) as they were. *)
Theorem Get_reads_only (self : ChordNode.t) (request : GetRequest.t) :
  always (Get _create_stub stub_Get self request)
    (λ '(_, self'),
       data_store self' = data_store self ∧
       replica_store self' = replica_store self ∧
       successor self' = successor self ∧
       predecessor self' = predecessor self ∧
       successor_list self' = successor_list self ∧
       finger_table self' = finger_table self).
Proof.
  unfold Get.
  destruct (data_store _ !! _); [by apply always_ret|].
  destruct (replica_store _ !! _); [by apply always_ret|].
  apply always_then. intros [response|]; [by apply always_ret|].
  destruct (negb _); [|by apply always_ret].
  intros t. unfold bind.
  match goal with |- context [FindSuccessor _ ?s ?r t] =>
    pose proof (FindSuccessor_counts_only _create_stub s r t) as (l & h & Hs);
    destruct (FindSuccessor _create_stub s r t) as [[find_resp self1] t1] end.
  simpl in Hs. subst self1.
  destruct (negb _); [|done].
  unfold call, ret. by destruct (stub_Get _ _ _).
Qed.

(** A miss at the owner of the key, with no other node to ask. *)
Lemma Get_miss_owner self key t :
  data_store self !! key = None →
  replica_store self !! key = None →
  Forall (λ succ, NodeInfo.id succ = id self) (successor_list self) →
  is_owner self key = true →
  Get _create_stub stub_Get self (GetRequest.mk key) t
  = (GetResponse.mk false "" 0,
     set_operations_count (operations_count self + 1) self, t).
Proof.
  intros Hdata Hreplica Hlist Hown. unfold Get. simpl. rewrite Hdata, Hreplica.
  unfold bind. rewrite get_from_successors_self by done.
  unfold is_owner in Hown. fold (_hash self key). by rewrite Hown.
Qed.

(** X10. A miss without peers: when neither store has the key, the
    successor list names no other node, and the node owns the key or is its
    own successor, Get answers found=false without an outbound call. *)
Theorem Get_miss_alone (self : ChordNode.t) (key : string) (t : nat) :
  data_store self !! key = None →
  replica_store self !! key = None →
  Forall (λ succ, NodeInfo.id succ = id self) (successor_list self) →
  is_owner self key = true ∨ NodeInfo.id (successor self) = id self →
  let '(resp, _, t') := Get _create_stub stub_Get self (GetRequest.mk key) t in
  resp = GetResponse.mk false "" 0 ∧ t' = t.
Proof.
  intros Hdata Hreplica Hlist Hcase.
  destruct (is_owner self key) eqn:Hown.
  { by rewrite Get_miss_owner. }
  destruct Hcase as [?|Halone]; [done|].
  unfold Get. simpl. rewrite Hdata, Hreplica.
  unfold bind at 1. rewrite get_from_successors_self by done.
  unfold is_owner in Hown. fold (_hash self key). rewrite Hown. simpl.
  unfold bind, FindSuccessor. simpl. rewrite Halone, in_range_whole_ring. simpl.
  by rewrite Halone, Z.eqb_refl.
Qed.

(** Nothing is replicated to the node itself. *)
Lemma replicate_loop_self self req l acc t :
  Forall (λ succ, NodeInfo.id succ = id self) l →
  replicate_loop _create_stub self req l acc t = (acc, t).
Proof.
  induction 1 as [|succ rest Hsucc _ IH]; simpl; [done|].
  by rewrite Hsucc, Z.eqb_refl.
Qed.

Lemma Forall_slice_to {A} (P : A → Prop) (n : Z) (l : list A) :
  Forall P l → Forall P (slice_to n l).
Proof. intros H. unfold slice_to. destruct (0 <=? n); by apply Forall_take. Qed.

(** The primary path at the owner when the successor list names no other
    node. *)
Lemma Put_primary_no_peers self key value requested timestamp t :
  is_owner self key = true →
  Forall (λ succ, NodeInfo.id succ = id self) (successor_list self) →
  Put _create_stub self (PutRequest.mk key value false requested) timestamp t
  = (PutResponse.mk true "Stored with 0 replicas" (next_version self key),
     set_data_store
       (<[key := DataItem.mk key value (next_version self key) timestamp]>
          (data_store self))
       (set_operations_count (operations_count self + 1) self),
     t).
Proof.
  intros Hown Hlist. unfold Put. simpl. unfold is_owner in Hown. rewrite Hown. simpl.
  unfold store_locally. simpl. fold (next_version self key).
  destruct (is_initialized self); unfold bind, ret; [|done].
  unfold _replicate_put. simpl.
  rewrite replicate_loop_self; [done|]. by apply Forall_slice_to.
Qed.

(** A primary Delete of a key the node holds, with no other node to tell. *)
Lemma Delete_primary_no_peers self key item t :
  data_store self !! key = Some item →
  Forall (λ succ, NodeInfo.id succ = id self) (successor_list self) →
  Delete _create_stub self (DeleteRequest.mk key false) t
  = (DeleteResponse.mk true "Deleted",
     set_data_store (delete key (data_store self))
       (set_operations_count (operations_count self + 1) self),
     t).
Proof.
  intros Hitem Hlist. unfold Delete, bind, ret. simpl. rewrite Hitem.
  rewrite delete_replicas_ticks. simpl.
  replace (List.filter _ (successor_list self)) with (@nil NodeInfo.t).
  - simpl. by rewrite Nat.add_0_r.
  - symmetry. induction Hlist as [|succ rest Hsucc _ IH]; simpl; [done|].
    by rewrite Hsucc, Z.eqb_refl.
Qed.

(** X11. A node without predecessor whose successor list names no other
    node, as it is from construction: a Put of a new key answers version 1
    with no replicas, a Get returns the value with version 1, a Delete
    succeeds, and a second Get finds nothing; none of the four makes an
    outbound call. *)
Theorem alone_put_get_delete (self : ChordNode.t) (key value : string)
    (timestamp : Z) (t : nat) :
  predecessor self = None →
  Forall (λ succ, NodeInfo.id succ = id self) (successor_list self) →
  data_store self !! key = None →
  replica_store self !! key = None →
  let '(put, node1, t1) :=
    Put _create_stub self (PutRequest.mk key value false 0) timestamp t in
  let '(get, node2, t2) := Get _create_stub stub_Get node1 (GetRequest.mk key) t1 in
  let '(del, node3, t3) := Delete _create_stub node2 (DeleteRequest.mk key false) t2 in
  let '(get', _, t4) := Get _create_stub stub_Get node3 (GetRequest.mk key) t3 in
  put = PutResponse.mk true "Stored with 0 replicas" 1 ∧
  get = GetResponse.mk true value 1 ∧
  del = DeleteResponse.mk true "Deleted" ∧
  get' = GetResponse.mk false "" 0 ∧
  t4 = t.
Proof.
  intros Hpred Hlist Hdata Hreplica.
  assert (Hown : is_owner self key = true) by (unfold is_owner; by rewrite Hpred).
  assert (Hnext : next_version self key = 1) by (unfold next_version; by rewrite Hdata).
  rewrite Put_primary_no_peers, Hnext by done.
  set (item := DataItem.mk key value 1 timestamp).
  rewrite (Get_primary _ key item) by apply lookup_insert_eq.
  rewrite (Delete_primary_no_peers _ key item); [|apply lookup_insert_eq|done].
  rewrite Get_miss_owner; [done| | | |].
  - simpl. apply lookup_delete_eq.
  - done.
  - done.
  - unfold is_owner. simpl. by rewrite Hpred.
Qed.

(** What [store_locally] leaves alone. *)
Lemma store_locally_frame self request timestamp :
  always (store_locally _create_stub self request timestamp)
    (λ '(_, self'),
       operations_count self' = operations_count self ∧
       successor self' = successor self ∧
       predecessor self' = predecessor self ∧
       successor_list self' = successor_list self ∧
       finger_table self' = finger_table self).
Proof.
  unfold store_locally. destruct (PutRequest.is_replica request);
    [by apply always_ret|].
  apply always_then. intros k. by apply always_ret.
Qed.

(** X12. Put, Get and Delete each add exactly one to operations_count,
    whatever their outcome, and Put and Delete leave the routing state
    (successor, predecessor, successor list, finger table) as it was. *)
Theorem operations_counted :
  (∀ self request timestamp,
     always (Put _create_stub self request timestamp)
       (λ '(_, self'),
          operations_count self' = operations_count self + 1 ∧
          successor self' = successor self ∧
          predecessor self' = predecessor self ∧
          successor_list self' = successor_list self ∧
          finger_table self' = finger_table self)) ∧
  (∀ self request,
     always (Get _create_stub stub_Get self request)
       (λ '(_, self'), operations_count self' = operations_count self + 1)) ∧
  (∀ self request,
     always (Delete _create_stub self request)
       (λ '(_, self'),
          operations_count self' = operations_count self + 1 ∧
          successor self' = successor self ∧
          predecessor self' = predecessor self ∧
          successor_list self' = successor_list self ∧
          finger_table self' = finger_table self)).
Proof.
  split; [|split].
  - intros self request timestamp. unfold Put.
    set (self0 := set_operations_count (operations_count self + 1) self).
    destruct (_ && _).
    + intros t. unfold bind.
      match goal with |- context [FindSuccessor _ ?s ?r t] =>
        pose proof (FindSuccessor_counts_only _create_stub s r t) as (l & h & Hs);
        destruct (FindSuccessor _create_stub s r t) as [[find_resp self1] t1] end.
      simpl in Hs. subst self1. destruct (negb _).
      * unfold call, ret. by destruct (ChordServiceStub.Put _ _ _).
      * pose proof (store_locally_frame
                      (set_total_hops h (set_lookup_count l self0))
                      request timestamp t1) as H.
        by destruct (store_locally _ _ _ _ _) as [[resp self'] t'].
    + intros t. pose proof (store_locally_frame self0 request timestamp t) as H.
      by destruct (store_locally _ _ _ _ _) as [[resp self'] t'].
  - intros self request. unfold Get.
    destruct (data_store _ !! _); [by apply always_ret|].
    destruct (replica_store _ !! _); [by apply always_ret|].
    apply always_then. intros [response|]; [by apply always_ret|].
    destruct (negb _); [|by apply always_ret].
    intros t. unfold bind.
    match goal with |- context [FindSuccessor _ ?s ?r t] =>
      pose proof (FindSuccessor_counts_only _create_stub s r t) as (l & h & Hs);
      destruct (FindSuccessor _create_stub s r t) as [[find_resp self1] t1] end.
    simpl in Hs. subst self1. destruct (negb _); [|done].
    unfold call, ret. by destruct (stub_Get _ _ _).
  - intros self request t. unfold Delete, bind, ret.
    destruct (DeleteRequest.is_replica request).
    + by destruct (replica_store _ !! _).
    + destruct (data_store _ !! _); [|done].
      by rewrite delete_replicas_ticks.
Qed.

(** X13. A node that is its own successor never forwards a Put: with
    is_replica=false it takes the primary path on its own store, whether its
    predecessor makes it the owner of the key or not. *)
Theorem Put_at_own_successor (self : ChordNode.t) (key value : string)
    (requested timestamp : Z) :
  NodeInfo.id (successor self) = id self →
  always (Put _create_stub self (PutRequest.mk key value false requested) timestamp)
    (λ '(resp, self'),
       PutResponse.success resp = true ∧
       PutResponse.version resp = next_version self key ∧
       data_store self'
       = <[key := DataItem.mk key value (next_version self key) timestamp]>
           (data_store self)).
Proof.
  intros Halone t. destruct (is_owner self key) eqn:Hown.
  - pose proof (Put_primary _create_stub self key value requested timestamp Hown t) as H.
    destruct (Put _ _ _ _ _) as [[resp self'] t']. simpl in *.
    by destruct H as (? & ? & ? & _).
  - unfold Put. simpl. unfold is_owner in Hown. rewrite Hown. simpl.
    unfold bind, FindSuccessor. simpl. rewrite Halone, in_range_whole_ring. simpl.
    rewrite Halone, Z.eqb_refl. simpl.
    match goal with |- context [store_locally _ ?s ?r ?ts t] =>
      pose proof (store_locally_primary _create_stub s key value requested ts t) as H;
      destruct (store_locally _create_stub s r ts t) as [[resp self'] t'] end.
    simpl in *. by destruct H as (? & ? & ? & _).
Qed.

(** A primary Delete of a key the node holds. *)
Lemma Delete_primary_present self key item :
  data_store self !! key = Some item →
  always (Delete _create_stub self (DeleteRequest.mk key false))
    (λ '(resp, self'),
       resp = DeleteResponse.mk true "Deleted" ∧
       self' = set_data_store (delete key (data_store self))
                 (set_operations_count (operations_count self + 1) self)).
Proof.
  intros Hitem t. unfold Delete, bind, ret. simpl. rewrite Hitem.
  by rewrite delete_replicas_ticks.
Qed.

(** X14. Versions do not survive a Delete: at the owner, once a key has
    been deleted, the next Put of that key answers version 1 again, whatever
    version the key had reached. *)
Theorem Put_after_Delete_restarts (self : ChordNode.t) (key value : string)
    (requested timestamp : Z) :
  is_owner self key = true →
  is_Some (data_store self !! key) →
  always (Delete _create_stub self (DeleteRequest.mk key false))
    (λ '(del, self1),
       DeleteResponse.success del = true ∧
       always (Put _create_stub self1 (PutRequest.mk key value false requested)
                 timestamp)
         (λ '(resp, _),
            PutResponse.success resp = true ∧ PutResponse.version resp = 1)).
Proof.
  intros Hown [item Hitem] t.
  pose proof (Delete_primary_present self key item Hitem t) as H.
  destruct (Delete _ _ _ _) as [[del self1] t1]. simpl in *.
  destruct H as [-> ->]. split; [done|]. intros t'.
  match goal with |- context [Put _ ?s _ _ t'] =>
    assert (Hown1 : is_owner s key = true) by exact Hown;
    pose proof (Put_primary _create_stub s key value requested timestamp Hown1 t') as H;
    destruct (Put _create_stub s (PutRequest.mk key value false requested) timestamp t')
      as [[resp self2] t2] end.
  simpl in *. destruct H as (Hs & Hv & _). split; [done|]. rewrite Hv.
  unfold next_version. simpl. by rewrite lookup_delete_eq.
Qed.

End StoreProperties.

(** The scenario at the new node, over the network that accepts Puts. *)
Lemma alone_put_get_delete_witness :
  predecessor node_5000 = None ∧
  (Put accepting node_5000 (PutRequest.mk "alpha" "1" false 0) 1000 0%nat).1.1
  = PutResponse.mk true "Stored with 0 replicas" 1.
Proof.
  split; [reflexivity|].
  pose proof (alone_put_get_delete accepting (λ _ _ _, inl "unavailable")
                node_5000 "alpha" "1" 1000 0%nat eq_refl) as H.
  destruct (Put _ _ _ _ _) as [[put node1] t1].
  destruct (Get _ _ _ _ _) as [[get node2] t2].
  destruct (Delete _ _ _ _) as [[del node3] t3].
  destruct (Get _ _ _ _ _) as [[get' node4] t4].
  apply H.
  - repeat constructor.
  - reflexivity.
  - reflexivity.
Defined.

(** Put then Get of "alpha" at its owner. *)
Lemma Put_then_Get_witness :
  is_owner node_5000_after_notify "alpha" = true ∧
  (Get unreachable (λ _ _ _, inl "unavailable")
     (Put unreachable node_5000_after_notify (PutRequest.mk "alpha" "1" false 0)
        1000 0%nat).1.2
     (GetRequest.mk "alpha") 0%nat).1.1
  = GetResponse.mk true "1" 1.
Proof.
  assert (Hown : is_owner node_5000_after_notify "alpha" = true)
    by (vm_compute; reflexivity).
  split; [exact Hown|].
  pose proof (Put_then_Get unreachable (λ _ _ _, inl "unavailable")
                node_5000_after_notify "alpha" "1" 0 1000 Hown 0%nat) as H.
  destruct (Put _ _ _ _ _) as [[resp self1] t1] eqn:E. cbn [fst snd] in *.
  rewrite H. cbn [fst]. f_equal.
  vm_compute in E. by injection E as <- _ _.
Defined.

(** Get of "gamma" at a node that does not own it and is its own successor. *)
Lemma Get_miss_alone_witness :
  is_owner node_5000_after_notify "gamma" = false ∧
  (Get accepting (λ _ _ _, inl "unavailable") node_5000_after_notify
     (GetRequest.mk "gamma") 0%nat).1.1
  = GetResponse.mk false "" 0.
Proof.
  split; [vm_compute; reflexivity|].
  pose proof (Get_miss_alone accepting (λ _ _ _, inl "unavailable")
                node_5000_after_notify "gamma" 0%nat eq_refl eq_refl) as H.
  destruct (Get _ _ _ _ _) as [[resp self'] t']. apply H.
  - repeat constructor.
  - right. reflexivity.
Defined.

(** Put of "gamma" at a node that is its own successor and does not own it. *)
Lemma Put_at_own_successor_witness :
  NodeInfo.id (successor node_5000_after_notify) = id node_5000_after_notify ∧
  PutResponse.version
    (Put unreachable node_5000_after_notify (PutRequest.mk "gamma" "1" false 0)
       1000 0%nat).1.1
  = next_version node_5000_after_notify "gamma".
Proof.
  split; [reflexivity|].
  pose proof (Put_at_own_successor unreachable node_5000_after_notify "gamma" "1" 0
                1000 eq_refl 0%nat) as H.
  destruct (Put _ _ _ _ _) as [[resp self'] t']. apply H.
Defined.

(** Delete and Put of "alpha" at the node that holds it. *)
Lemma Put_after_Delete_restarts_witness :
  is_owner node_5000_with_keys "alpha" = true ∧
  is_Some (data_store node_5000_with_keys !! "alpha") ∧
  PutResponse.version
    (Put unreachable
       (Delete unreachable node_5000_with_keys (DeleteRequest.mk "alpha" false)
          0%nat).1.2
       (PutRequest.mk "alpha" "3" false 0) 3000 0%nat).1.1
  = 1.
Proof.
  assert (Hown : is_owner node_5000_with_keys "alpha" = true)
    by (vm_compute; reflexivity).
  assert (Hin : is_Some (data_store node_5000_with_keys !! "alpha"))
    by (vm_compute; eexists; reflexivity).
  split; [exact Hown|]. split; [exact Hin|].
  pose proof (Put_after_Delete_restarts unreachable node_5000_with_keys "alpha" "3"
                0 3000 Hown Hin 0%nat) as H.
  destruct (Delete _ _ _ _) as [[del self1] t1]. cbn [fst snd] in *.
  destruct H as [_ H]. specialize (H 0%nat).
  destruct (Put _ _ _ _ _) as [[resp self2] t2]. apply H.
Defined.

(** ** No call to the node itself *)

(** Two computations that agree step by step. *)
Lemma bind_ext {A B} (c1 c2 : Rpc A) (k1 k2 : A → Rpc B) (t : nat) :
  c1 t = c2 t →
  (∀ a t', c2 t = (a, t') → k1 a t' = k2 a t') →
  bind c1 k1 t = bind c2 k2 t.
Proof.
  intros Hc Hk. unfold bind. rewrite Hc. destruct (c2 t) as [a t'] eqn:E.
  by apply Hk.
Qed.

Section NoSelfCall.

Variables stub1 stub2 : NodeInfo.t → ChordServiceStub.t.
Variables get1 get2 : NodeInfo.t → nat → GetRequest.t → exn + GetResponse.t.
Variable self_id : Z.
Hypothesis Hpeers : same_peers self_id stub1 stub2.
Hypothesis Hget : ∀ n, NodeInfo.id n ≠ self_id → get1 n = get2 n.

Lemma _is_node_alive_peers n t :
  NodeInfo.id n ≠ self_id → _is_node_alive stub1 n t = _is_node_alive stub2 n t.
Proof. intros Hn. unfold _is_node_alive. by rewrite (Hpeers n Hn). Qed.

Lemma closest_finger_peers self key_id upto t :
  id self = self_id →
  closest_finger stub1 self key_id upto t = closest_finger stub2 self key_id upto t.
Proof.
  intros Hid. revert t. induction upto as [|i IH]; intros t; simpl; [done|].
  destruct (finger_table self !! i) as [[finger|]|]; try apply IH.
  destruct (Z.eqb_spec (NodeInfo.id finger) (id self)) as [Heq|Hne]; simpl;
    [apply IH|].
  destruct (_in_range _ _ _ false); [|apply IH].
  unfold bind. rewrite _is_node_alive_peers by congruence.
  destruct (_is_node_alive stub2 finger t) as [[|] t']; [done|apply IH].
Qed.

Lemma closest_in_list_peers self key_id l t :
  id self = self_id →
  closest_in_list stub1 self key_id l t = closest_in_list stub2 self key_id l t.
Proof.
  intros Hid. revert t. induction l as [|succ rest IH]; intros t; simpl; [done|].
  destruct (Z.eqb_spec (NodeInfo.id succ) (id self)) as [Heq|Hne]; simpl;
    [apply IH|].
  destruct (_in_range _ _ _ false); [|apply IH].
  unfold bind. rewrite _is_node_alive_peers by congruence.
  destruct (_is_node_alive stub2 succ t) as [[|] t']; [done|apply IH].
Qed.

Lemma _closest_preceding_finger_peers self key_id t :
  id self = self_id →
  _closest_preceding_finger stub1 self key_id t
  = _closest_preceding_finger stub2 self key_id t.
Proof.
  intros Hid. unfold _closest_preceding_finger, bind.
  rewrite closest_finger_peers by done.
  destruct (closest_finger stub2 _ _ _ _) as [[finger|] t1]; [done|].
  by rewrite closest_in_list_peers.
Qed.

Lemma FindSuccessor_peers self request t :
  id self = self_id →
  FindSuccessor stub1 self request t = FindSuccessor stub2 self request t.
Proof.
  intros Hid. unfold FindSuccessor.
  destruct (_in_range _ _ _ true); [done|].
  unfold bind. rewrite _closest_preceding_finger_peers by done.
  destruct (_closest_preceding_finger stub2 _ _ _) as [next_node t1].
  destruct (Z.eqb_spec (NodeInfo.id next_node) (id (set_lookup_count (lookup_count self + 1) self)))
    as [Heq|Hne]; [done|].
  unfold call. rewrite (Hpeers next_node) by (simpl in Hne; congruence). done.
Qed.

Lemma replicate_loop_peers self req l acc t :
  id self = self_id →
  replicate_loop stub1 self req l acc t = replicate_loop stub2 self req l acc t.
Proof.
  intros Hid. revert acc t.
  induction l as [|succ rest IH]; intros acc t; simpl; [done|].
  destruct (Z.eqb_spec (NodeInfo.id succ) (id self)) as [Heq|Hne]; [apply IH|].
  unfold bind, call. rewrite (Hpeers succ) by congruence.
  destruct (ChordServiceStub.SyncReplica _ _ _) as [e|resp]; [apply IH|].
  destruct (SyncReplicaResponse.success resp); apply IH.
Qed.

Lemma store_locally_peers self request timestamp t :
  id self = self_id →
  store_locally stub1 self request timestamp t
  = store_locally stub2 self request timestamp t.
Proof.
  intros Hid. unfold store_locally.
  destruct (PutRequest.is_replica request); [done|].
  unfold bind. simpl. destruct (is_initialized self); [|done].
  unfold _replicate_put. by rewrite replicate_loop_peers.
Qed.

Lemma Put_peers self request timestamp t :
  id self = self_id →
  Put stub1 self request timestamp t = Put stub2 self request timestamp t.
Proof.
  intros Hid. unfold Put. destruct (_ && _); [|by apply store_locally_peers].
  unfold bind. rewrite FindSuccessor_peers by done.
  match goal with |- context [FindSuccessor stub2 ?s ?r t] =>
    pose proof (FindSuccessor_counts_only stub2 s r t) as (l & h & Hs);
    destruct (FindSuccessor stub2 s r t) as [[find_resp self1] t1] end.
  simpl in Hs. subst self1.
  destruct (Z.eqb_spec (NodeInfo.id (FindSuccessorResponse.node find_resp))
              (id (set_total_hops h (set_lookup_count l
                     (set_operations_count (operations_count self + 1) self)))))
    as [Heq|Hne]; simpl.
  - by apply store_locally_peers.
  - unfold call. rewrite (Hpeers (FindSuccessorResponse.node find_resp)); [done|].
    simpl in Hne. congruence.
Qed.

Lemma get_from_successors_peers self request l t :
  id self = self_id →
  get_from_successors get1 self request l t = get_from_successors get2 self request l t.
Proof.
  intros Hid. revert t. induction l as [|succ rest IH]; intros t; simpl; [done|].
  destruct (Z.eqb_spec (NodeInfo.id succ) (id self)) as [Heq|Hne]; [apply IH|].
  unfold bind, call. rewrite (Hget succ) by congruence.
  destruct (get2 succ t request) as [e|response]; [apply IH|].
  destruct (GetResponse.found response); [done|apply IH].
Qed.

Lemma Get_peers self request t :
  id self = self_id →
  Get stub1 get1 self request t = Get stub2 get2 self request t.
Proof.
  intros Hid. unfold Get.
  destruct (data_store _ !! _); [done|].
  destruct (replica_store _ !! _); [done|].
  apply bind_ext; [by apply get_from_successors_peers|].
  intros [response|] t0 _; [done|].
  destruct (negb _); [|done].
  apply bind_ext; [by apply FindSuccessor_peers|].
  intros [find_resp self1] t1 Hfind.
  match type of Hfind with FindSuccessor _ ?s ?r ?t = _ =>
    pose proof (FindSuccessor_counts_only stub2 s r t) as (l & h & Hs) end.
  rewrite Hfind in Hs. simpl in Hs. subst self1.
  destruct (Z.eqb_spec (NodeInfo.id (FindSuccessorResponse.node find_resp))
              (id (set_total_hops h (set_lookup_count l
                     (set_operations_count (operations_count self + 1) self)))))
    as [Heq|Hne]; simpl; [done|].
  unfold bind, call. rewrite (Hget (FindSuccessorResponse.node find_resp)); [done|].
  simpl in Hne. congruence.
Qed.

Lemma build_loop_peers self attempts :
  id self = self_id →
  ∀ successors (seen_ids : gset Z) current t,
    id self ∈ seen_ids →
    build_loop stub1 self attempts successors seen_ids current t
    = build_loop stub2 self attempts successors seen_ids current t.
Proof.
  intros Hid. induction attempts as [|attempts IH];
    intros successors seen_ids current t Hseen; simpl; [done|].
  destruct (_ >=? _); [done|].
  case_decide as Hcur; [done|].
  assert (Hne : NodeInfo.id current ≠ self_id) by (intros Heq; apply Hcur; congruence).
  unfold bind, call. rewrite _is_node_alive_peers by done.
  destruct (_is_node_alive stub2 current t) as [[|] t1];
    rewrite (Hpeers current) by done;
    destruct (ChordServiceStub.GetSuccessor _ _) as [e|resp]; try done.
  - case_decide; [done|]. apply IH. by apply elem_of_union_l.
  - case_decide; by apply IH.
Qed.

Lemma _build_successor_list_peers self t :
  id self = self_id →
  _build_successor_list stub1 self t = _build_successor_list stub2 self t.
Proof.
  intros Hid. unfold _build_successor_list. destruct (_ =? _); [done|].
  apply build_loop_peers; [done|]. by apply elem_of_singleton.
Qed.

Lemma backup_successor_peers self l t :
  id self = self_id →
  backup_successor stub1 self l t = backup_successor stub2 self l t.
Proof.
  intros Hid. revert t. induction l as [|succ rest IH]; intros t; simpl; [done|].
  destruct (Z.eqb_spec (NodeInfo.id succ) (id self)) as [Heq|Hne]; simpl;
    [apply IH|].
  unfold bind. rewrite _is_node_alive_peers by congruence.
  destruct (_is_node_alive stub2 succ t) as [[|] t1]; [|apply IH].
  by rewrite _build_successor_list_peers.
Qed.

Lemma rereplicate_peers self promoted t :
  id self = self_id →
  rereplicate stub1 self promoted t = rereplicate stub2 self promoted t.
Proof.
  intros Hid. revert t. induction promoted as [|key rest IH]; intros t; simpl;
    [done|].
  destruct (data_store self !! key) as [item|]; [|apply IH].
  unfold bind, _replicate_put. rewrite replicate_loop_peers by done.
  destruct (replicate_loop stub2 _ _ _ _ _). apply IH.
Qed.

Lemma _promote_replicas_on_failure_peers self failed t :
  id self = self_id →
  _promote_replicas_on_failure stub1 self failed t
  = _promote_replicas_on_failure stub2 self failed t.
Proof.
  intros Hid. unfold _promote_replicas_on_failure.
  pose proof (promote_fold_routing (map_to_list (replica_store self)) self [])
    as (_ & Hid' & _).
  destruct (foldl promote_step _ _) as [self1 promoted]. simpl in Hid'.
  unfold bind. rewrite rereplicate_peers by congruence. done.
Qed.

Lemma backup_successor_id self l t :
  id (backup_successor stub2 self l t).1 = id self.
Proof.
  revert t. induction l as [|succ rest IH]; intros t; simpl; [done|].
  destruct (negb _); [|apply IH].
  unfold bind. destruct (_is_node_alive stub2 succ t) as [[|] t1]; [|apply IH].
  by destruct (_build_successor_list _ _ _).
Qed.

Lemma _stabilize_peers self t :
  id self = self_id →
  _stabilize stub1 self t = _stabilize stub2 self t.
Proof.
  intros Hid. unfold _stabilize.
  destruct (Z.eqb_spec (NodeInfo.id (successor self)) (id self)) as [Heq|Hne];
    [done|].
  assert (Hsucc : NodeInfo.id (successor self) ≠ self_id) by congruence.
  apply bind_ext; [by apply _is_node_alive_peers|].
  intros [|] t1 _; simpl.
  - apply bind_ext; [unfold call; by rewrite (Hpeers (successor self))|].
    intros [e|resp] t2 _; [by apply backup_successor_peers|].
    apply bind_ext; [unfold call; by rewrite (Hpeers (successor self))|].
    intros [e|ack] t3 _.
    + apply backup_successor_peers. by destruct (_ && _).
    + apply bind_ext; [|done].
      apply _build_successor_list_peers. by destruct (_ && _).
  - apply bind_ext; [by apply backup_successor_peers|].
    intros self1 t2 Hback.
    pose proof (backup_successor_id self (successor_list self) t1) as Hid1.
    unfold _handle_successor_failure in Hback. rewrite Hback in Hid1.
    apply _promote_replicas_on_failure_peers. simpl in Hid1. congruence.
Qed.

Lemma Join_peers self request t :
  id self = self_id →
  Join stub1 self request t = Join stub2 self request t.
Proof.
  intros Hid. unfold Join.
  destruct (_in_range _ _ _ false); simpl.
  { unfold bind. by rewrite _build_successor_list_peers. }
  destruct (Z.eqb_spec (NodeInfo.id (successor self)) (id self)) as [Heq|Hne].
  { unfold bind. by rewrite _build_successor_list_peers. }
  unfold bind, call. by rewrite (Hpeers (successor self)) by congruence.
Qed.

End NoSelfCall.

(** X15. A lookup never calls the node itself: FindSuccessor gives the same
    answer, the same node and the same number of calls over any two
    networks that differ only in the peers carrying the node's own
    identifier. *)
Theorem FindSuccessor_never_calls_self
    (stub1 stub2 : NodeInfo.t → ChordServiceStub.t)
    (self : ChordNode.t) (request : FindSuccessorRequest.t) (t : nat) :
  same_peers (id self) stub1 stub2 →
  FindSuccessor stub1 self request t = FindSuccessor stub2 self request t.
Proof. intros Hpeers. by apply FindSuccessor_peers with (id self). Qed.

(** X16. Put and Get never call the node itself: routing, forwarding,
    replication and the scan of the successor list only reach peers with
    another identifier. *)
Theorem Put_Get_never_call_self
    (stub1 stub2 : NodeInfo.t → ChordServiceStub.t)
    (get1 get2 : NodeInfo.t → nat → GetRequest.t → exn + GetResponse.t)
    (self : ChordNode.t) (t : nat) :
  same_peers (id self) stub1 stub2 →
  (∀ n, NodeInfo.id n ≠ id self → get1 n = get2 n) →
  (∀ request timestamp,
     Put stub1 self request timestamp t = Put stub2 self request timestamp t) ∧
  (∀ request, Get stub1 get1 self request t = Get stub2 get2 self request t).
Proof.
  intros Hpeers Hget. split.
  - intros. by apply Put_peers with (id self).
  - intros. by apply Get_peers with (id self).
Qed.

(** X17. Maintenance never calls the node itself: stabilize (with the
    rebuilding of the successor list, the handling of a failed successor and
    the promotion of replicas) and Join give the same result over any two
    networks that differ only in the peers carrying the node's own
    identifier. *)
Theorem maintenance_never_calls_self
    (stub1 stub2 : NodeInfo.t → ChordServiceStub.t)
    (self : ChordNode.t) (t : nat) :
  same_peers (id self) stub1 stub2 →
  _stabilize stub1 self t = _stabilize stub2 self t ∧
  _build_successor_list stub1 self t = _build_successor_list stub2 self t ∧
  _handle_successor_failure stub1 self t = _handle_successor_failure stub2 self t ∧
  (∀ failed, _promote_replicas_on_failure stub1 self failed t
             = _promote_replicas_on_failure stub2 self failed t) ∧
  (∀ request, Join stub1 self request t = Join stub2 self request t).
Proof.
  intros Hpeers. repeat split; intros.
  - by apply _stabilize_peers with (id self).
  - by apply _build_successor_list_peers with (id self).
  - by apply backup_successor_peers with (id self).
  - by apply _promote_replicas_on_failure_peers with (id self).
  - by apply Join_peers with (id self).
Qed.

Lemma same_peers_deaf_to (i : Z) (stub : NodeInfo.t → ChordServiceStub.t) :
  same_peers i stub (deaf_to i stub).
Proof.
  intros n Hn. unfold deaf_to. by destruct (Z.eqb_spec (NodeInfo.id n) i).
Qed.

(** A lookup at the node in a ring, with and without the peers that carry
    its identifier. *)
Lemma FindSuccessor_never_calls_self_witness :
  same_peers (id node_5000_in_ring) accepting
    (deaf_to (id node_5000_in_ring) accepting) ∧
  FindSuccessor accepting node_5000_in_ring (FindSuccessorRequest.mk 2514469785) 0%nat
  = FindSuccessor (deaf_to (id node_5000_in_ring) accepting) node_5000_in_ring
      (FindSuccessorRequest.mk 2514469785) 0%nat.
Proof.
  split; [apply same_peers_deaf_to|].
  apply FindSuccessor_never_calls_self, same_peers_deaf_to.
Defined.

(** A Put at the node in a ring, with and without the peers that carry its
    identifier. *)
Lemma Put_Get_never_call_self_witness :
  same_peers (id node_5000_in_ring) accepting
    (deaf_to (id node_5000_in_ring) accepting) ∧
  Put accepting node_5000_in_ring (PutRequest.mk "alpha" "v" false 0) 5 0%nat
  = Put (deaf_to (id node_5000_in_ring) accepting) node_5000_in_ring
      (PutRequest.mk "alpha" "v" false 0) 5 0%nat.
Proof.
  split; [apply same_peers_deaf_to|].
  destruct (Put_Get_never_call_self accepting
              (deaf_to (id node_5000_in_ring) accepting)
              (λ _ _ _, inl "unavailable") (λ _ _ _, inl "unavailable")
              node_5000_in_ring 0%nat (same_peers_deaf_to _ _) (λ _ _, eq_refl))
    as [Hput _].
  apply Hput.
Defined.

(** A stabilize at the node in a ring, with and without the peers that
    carry its identifier. *)
Lemma maintenance_never_calls_self_witness :
  same_peers (id node_5000_in_ring) accepting
    (deaf_to (id node_5000_in_ring) accepting) ∧
  _stabilize accepting node_5000_in_ring 0%nat
  = _stabilize (deaf_to (id node_5000_in_ring) accepting) node_5000_in_ring 0%nat.
Proof.
  split; [apply same_peers_deaf_to|].
  destruct (maintenance_never_calls_self accepting
              (deaf_to (id node_5000_in_ring) accepting)
              node_5000_in_ring 0%nat (same_peers_deaf_to _ _))
    as [Hstab _].
  apply Hstab.
Defined.

(** ** Moving keys *)

Section KeyMoves.

Variable _create_stub : NodeInfo.t → ChordServiceStub.t.

(** TransferKeys in terms of the keys it selects. *)
Lemma TransferKeys_selected self request :
  let sel key :=
    _in_range (_hash self key) (TransferKeysRequest.start_id request)
      (TransferKeysRequest.end_id request) true in
  ∃ store',
    TransferKeys self request
    = (TransferKeysResponse.mk
         (List.filter (λ kv, sel kv.1) (map_to_list (data_store self))).*2 true
         ("Transferred "
            +:+ pretty (length (List.filter (λ kv, sel kv.1)
                                  (map_to_list (data_store self))).*2)
            +:+ " keys"),
       set_data_store store' self) ∧
    (∀ k, sel k = true → store' !! k = None) ∧
    (∀ k, sel k = false → store' !! k = data_store self !! k).
Proof.
  intros sel. unfold TransferKeys, dict_keys.
  destruct (transfer_fold self (TransferKeysRequest.start_id request)
              (TransferKeysRequest.end_id request)
              (map_to_list (data_store self)) [] (data_store self))
    as (items' & st' & Hf & Hi & Hgone & Hkept & Hn).
  { apply NoDup_fst_map_to_list. }
  { intros k v Hin. by apply elem_of_map_to_list. }
  rewrite Hf. simpl in Hi. subst items'. exists st'. split; [done|]. split.
  - intros k Hsel. destruct (data_store self !! k) as [v|] eqn:Hk.
    + apply Hgone; [|done]. apply list_elem_of_fmap. exists (k, v).
      split; [done|]. by apply elem_of_map_to_list.
    + rewrite Hkept; [done|]. left. intros Hin.
      apply list_elem_of_fmap in Hin as [[k' v] [-> Hin]].
      apply elem_of_map_to_list in Hin. simpl in Hk. congruence.
  - intros k Hsel. apply Hkept. by right.
Qed.

Lemma filter_none {A} (f : A → bool) (l : list A) :
  (∀ x, x ∈ l → f x = false) → List.filter f l = [].
Proof.
  induction l as [|x l IH]; intros Hf; simpl; [done|].
  rewrite (Hf x) by left. apply IH. intros y Hy. apply Hf. by right.
Qed.

(** X18. TransferKeys is spent after one call: a second call with the same
    interval, right after the first, returns no item and leaves the primary
    store as the first call left it. *)
Theorem TransferKeys_twice (self : ChordNode.t) (request : TransferKeysRequest.t) :
  let '(_, self1) := TransferKeys self request in
  let '(resp2, self2) := TransferKeys self1 request in
  TransferKeysResponse.items resp2 = [] ∧
  data_store self2 = data_store self1.
Proof.
  destruct (TransferKeys_selected self request) as (store1 & -> & Hgone1 & Hkept1).
  destruct (TransferKeys_selected (set_data_store store1 self) request)
    as (store2 & -> & Hgone2 & Hkept2).
  unfold _hash in *. simpl in *. split.
  - rewrite filter_none; [done|]. intros [k v] Hin.
    apply elem_of_map_to_list in Hin. simpl.
    destruct (_in_range _ _ _ true) eqn:Hsel; [|done].
    rewrite (Hgone1 k Hsel) in Hin. done.
  - apply map_eq. intros k.
    destruct (_in_range (hash_val (max_nodes self) k)
                (TransferKeysRequest.start_id request)
                (TransferKeysRequest.end_id request) true) eqn:Hsel.
    + rewrite (Hgone1 k Hsel). by apply Hgone2.
    + by apply Hkept2.
Qed.

(** X19. TransferKeys with start_id = end_id takes the whole ring: it
    returns every item of the primary store and leaves the store empty. *)
Theorem TransferKeys_whole_ring (self : ChordNode.t) (request : TransferKeysRequest.t) :
  TransferKeysRequest.start_id request = TransferKeysRequest.end_id request →
  let '(resp, self') := TransferKeys self request in
  TransferKeysResponse.items resp = (map_to_list (data_store self)).*2 ∧
  data_store self' = ∅.
Proof.
  intros Heq.
  destruct (TransferKeys_selected self request) as (store1 & -> & Hgone1 & _).
  cbn [TransferKeysResponse.items data_store]. rewrite Heq in *. split.
  - rewrite filter_all; [done|]. intros kv. apply in_range_whole_ring.
  - apply map_empty. intros k. apply Hgone1, in_range_whole_ring.
Qed.



(** The loop of the promotion over the entries [l] of the replica store. *)
Lemma promote_fold (l : list (string * DataItem.t)) :
  ∀ self promoted,
    NoDup l.*1 →
    (∀ k v, (k, v) ∈ l → replica_store self !! k = Some v) →
    let self' := (foldl promote_step (self, promoted) l).1 in
    (∀ k v, (k, v) ∈ l → promotes self k = true →
            data_store self' !! k = Some v ∧ replica_store self' !! k = None) ∧
    (∀ k, k ∉ l.*1 ∨ promotes self k = false →
          data_store self' !! k = data_store self !! k ∧
          replica_store self' !! k = replica_store self !! k) ∧
    (predecessor self = None → foldl promote_step (self, promoted) l = (self, promoted)).
Proof.
  induction l as [|[k v] l IH]; intros self promoted Hnd Hagree.
  - simpl. split; [|split]; [|done..]. by intros k' v' ?%elem_of_nil.
  - rewrite fmap_cons in Hnd. apply NoDup_cons in Hnd as [Hk Hnd].
    cbn [foldl promote_step]. unfold promotes in *.
    destruct (predecessor self) as [p|] eqn:Hpred.
    2:{ destruct (IH self promoted Hnd) as (Hmoved & Hkept & Hnone).
        { intros k' v' Hin. apply Hagree. by right. }
        rewrite Hpred in *. split; [by intros k' v' _ ?|]. split.
        - intros k' _. apply Hkept. by right.
        - intros _. by apply Hnone. }
    destruct (_in_range (_hash self k) (NodeInfo.id p) (id self) true) eqn:Hsel.
    + set (self1 := set_replica_store (delete k (replica_store self))
                      (set_data_store (<[k := v]> (data_store self)) self)).
      destruct (IH self1 (promoted ++ [k]) Hnd) as (Hmoved & Hkept & _).
      { intros k' v' Hin. simpl. rewrite lookup_delete_ne.
        - apply Hagree. by right.
        - intros ->. apply Hk. apply list_elem_of_fmap. by exists (k', v'). }
      subst self1. simpl in Hmoved, Hkept. unfold _hash in *. simpl in Hmoved, Hkept.
      rewrite Hpred in Hmoved, Hkept. split; [|split; [|done]].
      * intros k' v' Hin Hk'. apply elem_of_cons in Hin as [[= -> ->]|Hin].
        -- destruct (Hkept k) as [Hd Hr]; [by left|].
           rewrite Hd, Hr, lookup_insert_eq, lookup_delete_eq. done.
        -- by apply Hmoved.
      * intros k' Hk'. assert (k' ≠ k).
        { intros ->. destruct Hk' as [Hk'|Hk']; [|congruence]. apply Hk'. left. }
        destruct (Hkept k') as [Hd Hr].
        { destruct Hk' as [Hk'|Hk']; [left|by right].
          intros Hin. apply Hk'. by right. }
        by rewrite Hd, Hr, lookup_insert_ne, lookup_delete_ne.
    + destruct (IH self promoted Hnd) as (Hmoved & Hkept & _).
      { intros k' v' Hin. apply Hagree. by right. }
      rewrite Hpred in Hmoved, Hkept. split; [|split; [|done]].
      * intros k' v' Hin Hk'. apply elem_of_cons in Hin as [[= -> ->]|Hin];
          [congruence|]. by apply Hmoved.
      * intros k' Hk'. apply Hkept. destruct (decide (k' = k)) as [->|Hne].
        -- by right.
        -- destruct Hk' as [Hk'|Hk']; [left|by right].
           intros Hin. apply Hk'. by right.
Qed.

(** X21. Promotion on the failure of the successor moves every replica
    whose key hashes into (predecessor.id, self.id] from the replica store
    into the primary store, over whatever the primary store held under that
    key; every other key stays as it was in both stores; and a node without
    predecessor promotes nothing and makes no call. *)
Theorem _promote_replicas_on_failure_moves (self : ChordNode.t) (failed_node_id : Z) :
  always (_promote_replicas_on_failure _create_stub self failed_node_id)
    (λ self',
       (∀ k item, replica_store self !! k = Some item → promotes self k = true →
                  data_store self' !! k = Some item ∧
                  replica_store self' !! k = None) ∧
       (∀ k, replica_store self !! k = None ∨ promotes self k = false →
             data_store self' !! k = data_store self !! k ∧
             replica_store self' !! k = replica_store self !! k)) ∧
  (predecessor self = None →
   ∀ t, _promote_replicas_on_failure _create_stub self failed_node_id t = (self, t)).
Proof.
  split.
  - intros t. unfold _promote_replicas_on_failure.
    destruct (promote_fold (map_to_list (replica_store self)) self [])
      as (Hmoved & Hkept & _).
    { apply NoDup_fst_map_to_list. }
    { intros k v Hin. by apply elem_of_map_to_list. }
    destruct (foldl promote_step _ _) as [self1 promoted]. simpl in *.
    unfold bind, ret. destruct (rereplicate _ _ _ _) as [[] t']. simpl. split.
    + intros k item Hitem Hk. apply Hmoved; [|done]. by apply elem_of_map_to_list.
    + intros k [Hnone|Hk]; apply Hkept; [left|by right].
      intros Hin. apply list_elem_of_fmap in Hin as [[k' v] [-> Hin]].
      apply elem_of_map_to_list in Hin. simpl in *. congruence.
  - intros Hpred t. unfold _promote_replicas_on_failure.
    destruct (promote_fold (map_to_list (replica_store self)) self [])
      as (_ & _ & Hnone).
    { apply NoDup_fst_map_to_list. }
    { intros k v Hin. by apply elem_of_map_to_list. }
    by rewrite (Hnone Hpred).
Qed.

(** The count of [_replicate_put] grows by at most one per entry. *)
Lemma replicate_loop_bound self req l :
  ∀ acc,
    always (replicate_loop _create_stub self req l acc)
      (λ k, acc ≤ k ≤ acc + Z.of_nat (length l)).
Proof.
  induction l as [|succ rest IH]; intros acc; simpl.
  - apply always_ret. lia.
  - assert (Hsame : always (replicate_loop _create_stub self req rest acc)
              (λ k, acc ≤ k ≤ acc + Z.of_nat (S (length rest)))).
    { intros t. specialize (IH acc t). simpl in *. lia. }
    destruct (_ =? _); [apply Hsame|].
    apply always_then. intros [e|resp]; [apply Hsame|].
    destruct (SyncReplicaResponse.success resp); [|apply Hsame].
    intros t. specialize (IH (acc + 1) t). simpl in *. lia.
Qed.

Lemma slice_to_length {A} (n : Z) (l : list A) :
  (length (slice_to n l) ≤ length l)%nat ∧
  (0 ≤ n → Z.of_nat (length (slice_to n l)) ≤ n).
Proof.
  unfold slice_to. destruct (Z.leb_spec 0 n); rewrite length_take; split; lia.
Qed.

Lemma _replicate_put_count self key value version timestamp :
  always (_replicate_put _create_stub self key value version timestamp)
    (λ k, 0 ≤ k ≤ Z.of_nat (length (successor_list self)) ∧
          (1 ≤ replication_factor self → k ≤ replication_factor self - 1)).
Proof.
  intros t. unfold _replicate_put.
  pose proof (replicate_loop_bound self
                (SyncReplicaRequest.mk key value version timestamp)
                (slice_to (replication_factor self - 1) (successor_list self))
                0 t) as Hb.
  destruct (slice_to_length (replication_factor self - 1) (successor_list self))
    as [Hlen Hcap].
  simpl in Hb. split; [lia|]. intros HR. lia.
Qed.

(** X22. The number of replicas a Put reports: [_replicate_put] counts
    between 0 and the length of the successor list, and at most R-1 when
    R is at least 1; the primary path of Put answers "Stored with K
    replicas" for such a K. *)
Theorem _replicate_put_bounded (self : ChordNode.t) :
  let bounded k :=
    0 ≤ k ≤ Z.of_nat (length (successor_list self)) ∧
    (1 ≤ replication_factor self → k ≤ replication_factor self - 1) in
  (∀ key value version timestamp,
     always (_replicate_put _create_stub self key value version timestamp) bounded) ∧
  (∀ key value requested timestamp,
     always (store_locally _create_stub self
               (PutRequest.mk key value false requested) timestamp)
       (λ '(resp, _),
          ∃ k, bounded k ∧
               PutResponse.message resp
               = "Stored with " +:+ pretty k +:+ " replicas")).
Proof.
  intros bounded. split; [intros; apply _replicate_put_count|].
  intros key value requested timestamp. unfold store_locally. simpl.
  destruct (is_initialized self).
  - eapply always_bind.
    + apply (_replicate_put_count
               (set_data_store
                  (<[key := DataItem.mk key value
                              match data_store self !! key with
                              | Some item => DataItem.version item + 1
                              | None => 1
                              end timestamp]> (data_store self)) self)).
    + intros k Hk. apply always_ret. by exists k.
  - intros t. unfold bind, ret. simpl. exists 0. split; [|done].
    subst bounded. simpl. lia.
Qed.

End KeyMoves.

(** TransferKeys over the degenerate interval (7, 7] at the node that holds
    "alpha" and "x". *)
Lemma TransferKeys_whole_ring_witness :
  data_store (TransferKeys node_5000_with_keys
                (TransferKeysRequest.mk 7 7 (peer 5001))).2 = ∅.
Proof.
  pose proof (TransferKeys_whole_ring node_5000_with_keys
                (TransferKeysRequest.mk 7 7 (peer 5001)) eq_refl) as H.
  destruct (TransferKeys _ _) as [resp self']. apply H.
Defined.

(** ** Routing state *)

(** The open arc leaves out both of its ends, and is empty between an
    identifier and itself. *)
Lemma in_range_open_arc (x a b : Z) :
  _in_range x a b false = true → x ≠ a ∧ x ≠ b ∧ a ≠ b.
Proof. range_cases; intros Hin; try discriminate; lia. Qed.

Lemma in_range_from_itself (x b : Z) : _in_range x x b false = false.
Proof.
  destruct (_in_range x x b false) eqn:H; [|done].
  apply in_range_open_arc in H. lia.
Qed.

(** X23. Notify always answers success and changes nothing but the
    predecessor. Whenever it replaces an existing predecessor, the new one
    carries an identifier other than the old one's and the node's own, and
    the hand-off thread is started; a first predecessor starts none. Sent a
    second time, the same Notify changes nothing and starts nothing. *)
Theorem Notify_outcomes (self : ChordNode.t) (request : NotifyRequest.t) :
  let node := NotifyRequest.node request in
  let '(resp, self1, started) := Notify self request in
  resp = NotifyResponse.mk true ∧
  (self1 = self ∨ self1 = set_predecessor (Some node) self) ∧
  (started = Some node ↔
   ∃ old, predecessor self = Some old ∧ predecessor self1 = Some node ∧
          self1 ≠ self) ∧
  (started = Some node →
   ∀ old, predecessor self = Some old →
          NodeInfo.id node ≠ NodeInfo.id old ∧ NodeInfo.id node ≠ id self) ∧
  (started = None ∨ started = Some node) ∧
  Notify self1 request = (NotifyResponse.mk true, self1, None).
Proof.
  intros node. unfold Notify. fold node.
  destruct (predecessor self) as [old|] eqn:Hold.
  - destruct (_in_range (NodeInfo.id node) (NodeInfo.id old) (id self) false)
      eqn:Hbetween.
    + destruct (in_range_open_arc _ _ _ Hbetween) as (Hno & Hns & _).
      destruct (Z.eqb_spec (NodeInfo.id old) (NodeInfo.id node)) as [Heq|Hne];
        [congruence|]. simpl.
      rewrite in_range_from_itself.
      split; [done|]. split; [by right|]. split; [|split; [|split]].
      * split; [|done]. intros _. exists old. split; [done|]. split; [done|].
        intros Hsame. apply (f_equal predecessor) in Hsame. simpl in Hsame.
        congruence.
      * by intros _ old' [= <-].
      * by right.
      * done.
    + rewrite Hold, Hbetween.
      split; [done|]. split; [by left|]. split; [|split; [|split]].
      * split; [done|]. by intros (old' & _ & _ & Hchanged).
      * done.
      * by left.
      * done.
  - simpl. rewrite in_range_from_itself.
    split; [done|]. split; [by right|]. split; [|split; [|split]].
    * split; [done|]. by intros (old' & Hold' & _).
    * done.
    * by left.
    * done.
Qed.

(** X24. A node whose predecessor carries the node's own identifier keeps
    it: every later Notify is answered success and ignored. *)
Theorem Notify_stuck_on_own_id (self : ChordNode.t) (request : NotifyRequest.t)
    (p : NodeInfo.t) :
  predecessor self = Some p →
  NodeInfo.id p = id self →
  Notify self request = (NotifyResponse.mk true, self, None).
Proof.
  intros Hpred Hid. unfold Notify. rewrite Hpred, Hid.
  unfold _in_range. by rewrite Z.eqb_refl.
Qed.

Section RoutingProperties.

Variable _create_stub : NodeInfo.t → ChordServiceStub.t.

(** X25. Join either takes the joining node as successor or passes the
    request on. Taken: the answer is success with the old successor, the
    node's successor is the joining node, and nothing else but the successor
    list changes. Passed on: the node stays as it was. And a node that is
    not its own successor never takes a joining node that carries the
    node's own identifier or its successor's. *)
Theorem Join_outcomes (self : ChordNode.t) (request : JoinRequest.t) :
  let joining_node := JoinRequest.joining_node request in
  let taken :=
    _in_range (NodeInfo.id joining_node) (id self) (NodeInfo.id (successor self)) false
    || (NodeInfo.id (successor self) =? id self) in
  always (Join _create_stub self request)
    (λ '(resp, self'),
       if taken then
         resp = JoinResponse.mk (successor self) true "Joined successfully" ∧
         ∃ l, self' = set_successor_list l (set_successor joining_node self)
       else self' = self) ∧
  (taken = true → NodeInfo.id (successor self) ≠ id self →
   NodeInfo.id joining_node ≠ id self ∧
   NodeInfo.id joining_node ≠ NodeInfo.id (successor self)).
Proof.
  intros joining_node taken. split.
  - unfold Join. fold joining_node. fold taken. destruct taken.
    + apply always_then. intros l. apply always_ret. split; [done|]. by exists l.
    + apply always_then. intros [e|response]; by apply always_ret.
  - subst taken. intros Htaken Hring. apply orb_true_iff in Htaken as [Hin|Halone].
    + apply in_range_open_arc in Hin. tauto.
    + apply Z.eqb_eq in Halone. done.
Qed.

(** The choice of a backup successor among the entries [l]. *)
Lemma backup_successor_choice self l :
  always (backup_successor _create_stub self l)
    (λ self',
       ((successor self' = self_info self ∧ successor_list self' = [self_info self])
        ∨ (successor self' ∈ l ∧ NodeInfo.id (successor self') ≠ id self)) ∧
       predecessor self' = predecessor self ∧
       data_store self' = data_store self ∧
       replica_store self' = replica_store self ∧
       finger_table self' = finger_table self).
Proof.
  induction l as [|succ rest IH]; simpl.
  - apply always_ret. split; [by left|done].
  - assert (Hrest : always (backup_successor _create_stub self rest)
              (λ self',
                 ((successor self' = self_info self
                   ∧ successor_list self' = [self_info self])
                  ∨ (successor self' ∈ succ :: rest
                     ∧ NodeInfo.id (successor self') ≠ id self)) ∧
                 predecessor self' = predecessor self ∧
                 data_store self' = data_store self ∧
                 replica_store self' = replica_store self ∧
                 finger_table self' = finger_table self)).
    { intros t. destruct (IH t) as ([?|[? ?]] & ?); (split; [|done]);
        [by left|right]. split; [by right|done]. }
    destruct (Z.eqb_spec (NodeInfo.id succ) (id self)) as [Heq|Hne]; simpl;
      [apply Hrest|].
    apply always_then. intros [|]; [|apply Hrest].
    apply always_then. intros l. apply always_ret. simpl.
    split; [right|done]. split; [by left|done].
Qed.

Lemma backup_successor_none_alive self l :
  no_peer_alive _create_stub →
  always (backup_successor _create_stub self l)
    (λ self', self' = set_successor_list [self_info self]
                        (set_successor (self_info self) self)).
Proof.
  intros Hdead. induction l as [|succ rest IH]; simpl; [by apply always_ret|].
  destruct (negb _); [|apply IH].
  intros t. unfold bind, _is_node_alive, call, ret. simpl.
  specialize (Hdead succ t).
  destruct (ChordServiceStub.Ping (_create_stub succ) t) as [e|response];
    [apply IH|].
  rewrite Hdead. apply IH.
Qed.

(** X26. When the successor has failed, the new successor is a node of the
    successor list that carries another identifier, or, failing that, the
    node itself with the successor list reduced to itself; predecessor,
    stores and finger table are left as they were, so a predecessor that
    has gone stays recorded. On a network where no liveness probe succeeds
    the node always falls back on itself. *)
Theorem _handle_successor_failure_choice (self : ChordNode.t) :
  always (_handle_successor_failure _create_stub self)
    (λ self',
       ((successor self' = self_info self ∧ successor_list self' = [self_info self])
        ∨ (successor self' ∈ successor_list self
           ∧ NodeInfo.id (successor self') ≠ id self)) ∧
       predecessor self' = predecessor self ∧
       data_store self' = data_store self ∧
       replica_store self' = replica_store self ∧
       finger_table self' = finger_table self) ∧
  (no_peer_alive _create_stub →
   always (_handle_successor_failure _create_stub self)
     (λ self', self' = set_successor_list [self_info self]
                         (set_successor (self_info self) self))).
Proof.
  split; [apply backup_successor_choice|].
  intros Hdead. by apply backup_successor_none_alive.
Qed.

Lemma _fix_finger_fills self index :
  always (_fix_finger _create_stub self index)
    (λ self',
       m self' = m self ∧
       length (finger_table self') = length (finger_table self) ∧
       ((index < length (finger_table self))%nat → filled self' index) ∧
       (∀ i, filled self i → filled self' i)).
Proof.
  intros t. unfold _fix_finger, bind, ret.
  match goal with |- context [FindSuccessor _ ?s ?r t] =>
    pose proof (FindSuccessor_counts_only _create_stub s r t) as (l & h & Hs);
    destruct (FindSuccessor _create_stub s r t) as [[resp self1] t1] end.
  simpl in Hs. subst self1. simpl. split; [done|]. split; [apply length_insert|].
  unfold filled. simpl. split.
  - intros Hlt. eexists. by apply list_lookup_insert_eq.
  - intros i [n Hn]. destruct (decide (index = i)) as [->|Hne].
    + eexists. apply list_lookup_insert_eq. by eapply lookup_lt_Some.
    + exists n. by rewrite list_lookup_insert_ne.
Qed.

Lemma _fix_fingers_loop_fills ticks :
  ∀ self next_finger,
    length (finger_table self) = m self →
    (next_finger + ticks ≤ m self)%nat →
    always (_fix_fingers_loop _create_stub self next_finger ticks)
      (λ '(self', next),
         m self' = m self ∧
         length (finger_table self') = m self ∧
         (∀ i, (next_finger ≤ i < next_finger + ticks)%nat → filled self' i) ∧
         (∀ i, filled self i → filled self' i) ∧
         (ticks ≠ 0%nat → next = Nat.modulo (next_finger + ticks) (m self)) ∧
         (ticks = 0%nat → next = next_finger)).
Proof.
  induction ticks as [|ticks IH]; intros self next_finger Hlen Hroom; simpl.
  - apply always_ret. repeat split; try done. intros i Hi. lia.
  - eapply always_bind; [apply _fix_finger_fills|].
    intros self1 (Hm & Hlen1 & Hhere & Hkeep).
    assert (Hm0 : Nat.eqb (m self1) 0 = false) by (apply Nat.eqb_neq; lia).
    rewrite Hm0, Hm. destruct ticks as [|ticks'].
    + simpl. apply always_ret. rewrite Hlen1.
      split; [done|]. split; [done|]. split; [|split; [done|split; [|done]]].
      * intros i Hi. assert (i = next_finger) as -> by lia. apply Hhere. lia.
      * intros _. f_equal; lia.
    + assert (Hnext : Nat.modulo (next_finger + 1) (m self) = S next_finger)
        by (rewrite Nat.mod_small; lia).
      rewrite Hnext. intros t.
      assert (Hlen1' : length (finger_table self1) = m self1) by lia.
      assert (Hroom' : (S next_finger + S ticks' ≤ m self1)%nat) by lia.
      pose proof (IH self1 (S next_finger) Hlen1' Hroom' t) as H'.
      destruct (_fix_fingers_loop _ _ _ _ _) as [[self' next] t'].
      simpl in *. destruct H' as (Hm' & Hlen' & Hthere & Hkeep' & Hnext' & _).
      rewrite Hm in *.
      split; [done|]. split; [done|]. split; [|split; [|split; [|done]]].
      * intros i Hi. destruct (decide (i = next_finger)) as [->|Hne].
        -- apply Hkeep', Hhere. lia.
        -- apply Hthere. lia.
      * intros i Hi. by apply Hkeep', Hkeep.
      * intros _. rewrite Hnext' by done. f_equal; lia.
Qed.

(** X27. One round of the fix-fingers loop: on a node whose finger table
    has its m entries, m turns of the loop from index 0 leave a node in
    every entry of the table, keep the table at m entries, and bring the
    index back to 0. *)
Theorem _fix_fingers_loop_round (self : ChordNode.t) :
  length (finger_table self) = m self →
  always (_fix_fingers_loop _create_stub self 0 (m self))
    (λ '(self', next),
       length (finger_table self') = m self ∧
       (∀ i, (i < m self)%nat → ∃ n, finger_table self' !! i = Some (Some n)) ∧
       next = 0%nat).
Proof.
  intros Hlen t.
  pose proof (_fix_fingers_loop_fills (m self) self 0%nat Hlen ltac:(lia) t) as H.
  destruct (_fix_fingers_loop _ _ _ _ _) as [[self' next] t'].
  simpl in *. destruct H as (_ & Hlen' & Hfilled & _ & Hnext & Hstay).
  repeat split; try done.
  - intros i Hi. apply Hfilled. lia.
  - destruct (m self) as [|k] eqn:Hm.
    + by apply Hstay.
    + rewrite Hnext by done. apply Nat.Div0.mod_same.
Qed.

End RoutingProperties.

(** A Notify from the port 5001 at the node whose predecessor carries its
    own identifier. *)
Lemma Notify_stuck_on_own_id_witness :
  predecessor node_5000_own_predecessor = Some (peer 5000) ∧
  NodeInfo.id (peer 5000) = id node_5000_own_predecessor ∧
  Notify node_5000_own_predecessor (NotifyRequest.mk (peer 5001))
  = (NotifyResponse.mk true, node_5000_own_predecessor, None).
Proof.
  assert (Hpred : predecessor node_5000_own_predecessor = Some (peer 5000))
    by reflexivity.
  assert (Hid : NodeInfo.id (peer 5000) = id node_5000_own_predecessor)
    by reflexivity.
  split; [exact Hpred|]. split; [exact Hid|].
  apply (Notify_stuck_on_own_id node_5000_own_predecessor
           (NotifyRequest.mk (peer 5001)) (peer 5000) Hpred Hid).
Defined.

(** One round of the loop at the new node, with no peer answering. *)
Lemma _fix_fingers_loop_round_witness :
  length (finger_table node_5000) = m node_5000 ∧
  (_fix_fingers_loop unreachable node_5000 0 (m node_5000) 0%nat).1.2 = 0%nat.
Proof.
  assert (Hlen : length (finger_table node_5000) = m node_5000) by reflexivity.
  split; [exact Hlen|].
  pose proof (_fix_fingers_loop_round unreachable node_5000 Hlen 0%nat) as H.
  destruct (_fix_fingers_loop _ _ _ _ _) as [[self' next] t']. apply H.
Defined.

Section Stabilize.

Variable _create_stub : NodeInfo.t → ChordServiceStub.t.

(** Promotion leaves the pointers of the node alone. *)
Lemma promote_fold_pointers l :
  ∀ self promoted,
    let self' := (foldl promote_step (self, promoted) l).1 in
    successor self' = successor self ∧
    predecessor self' = predecessor self ∧
    finger_table self' = finger_table self.
Proof.
  induction l as [|[key item] l IH]; intros self promoted; simpl; [done|].
  destruct (predecessor self) as [p|] eqn:Hpred; [|rewrite <- Hpred; apply IH].
  destruct (_in_range _ _ _ _); [|rewrite <- Hpred; apply IH].
  match goal with |- context [foldl promote_step (?s, ?p) l] =>
    destruct (IH s p) as (? & ? & ?) end.
  simpl in *. by rewrite <- Hpred.
Qed.

Lemma _promote_replicas_on_failure_pointers self failed :
  always (_promote_replicas_on_failure _create_stub self failed)
    (λ self',
       successor self' = successor self ∧
       predecessor self' = predecessor self ∧
       finger_table self' = finger_table self).
Proof.
  unfold _promote_replicas_on_failure.
  pose proof (promote_fold_pointers (map_to_list (replica_store self)) self []) as H.
  destruct (foldl promote_step _ _) as [self1 promoted]. simpl in H.
  apply always_then. intros _. by apply always_ret.
Qed.

(** X28. A round of stabilize moves the successor only towards the node:
    afterwards the successor is the one held before, or a node strictly
    between the node and that successor, or, when the successor or a call
    to it failed, a backup from the successor list or the node itself. The
    predecessor and the finger table are never changed by it, and a node
    that is its own successor does nothing at all. *)
Theorem _stabilize_successor (self : ChordNode.t) :
  always (_stabilize _create_stub self)
    (λ self',
       (successor self' = successor self
        ∨ _in_range (NodeInfo.id (successor self')) (id self)
            (NodeInfo.id (successor self)) false = true
        ∨ successor self' = self_info self
        ∨ (successor self' ∈ successor_list self
           ∧ NodeInfo.id (successor self') ≠ id self)) ∧
       predecessor self' = predecessor self ∧
       finger_table self' = finger_table self) ∧
  (NodeInfo.id (successor self) = id self →
   ∀ t, _stabilize _create_stub self t = (self, t)).
Proof.
  split.
  2:{ intros Halone t. unfold _stabilize. by rewrite Halone, Z.eqb_refl. }
  unfold _stabilize.
  destruct (NodeInfo.id (successor self) =? id self);
    [apply always_ret; split; [by left|done]|].
  assert (Hfail : ∀ self1,
            successor_list self1 = successor_list self →
            self_info self1 = self_info self → id self1 = id self →
            predecessor self1 = predecessor self →
            finger_table self1 = finger_table self →
            always (_handle_successor_failure _create_stub self1)
              (λ self',
                 (successor self' = successor self
                  ∨ _in_range (NodeInfo.id (successor self')) (id self)
                      (NodeInfo.id (successor self)) false = true
                  ∨ successor self' = self_info self
                  ∨ (successor self' ∈ successor_list self
                     ∧ NodeInfo.id (successor self') ≠ id self)) ∧
                 predecessor self' = predecessor self ∧
                 finger_table self' = finger_table self)).
  { intros self1 Hl Hinfo Hid Hpred Hft t.
    destruct (backup_successor_choice _create_stub self1 (successor_list self1) t)
      as (Hchoice & Hp & _ & _ & Hf).
    unfold _handle_successor_failure. rewrite Hp, Hf, Hpred, Hft.
    split; [|done]. right. right.
    rewrite Hinfo, Hid in Hchoice. rewrite <- Hl.
    destruct Hchoice as [[? _]|?]; [by left|by right]. }
  apply always_then. intros [|]; simpl.
  - apply always_then. intros [e|resp]; [by apply Hfail|].
    destruct (_ && _) eqn:Hadopt.
    + apply andb_true_iff in Hadopt as [_ Hbetween].
      apply always_then. intros [e|ack]; [by apply Hfail|].
      apply always_then. intros l. apply always_ret. simpl.
      split; [|done]. right. by left.
    + apply always_then. intros [e|ack]; [by apply Hfail|].
      apply always_then. intros l. apply always_ret. simpl.
      split; [by left|done].
  - eapply always_bind; [by apply Hfail|].
    intros self1 (Hchoice & Hp & Hf) t.
    destruct (_promote_replicas_on_failure_pointers self1
                (NodeInfo.id (successor self)) t) as (Hs' & Hp' & Hf').
    by rewrite Hs', Hp', Hf'.
Qed.

End Stabilize.
